(** * chess_board_locator: the geometric core of [ChessBoardLocator::cameraCallback]

    Shallow embedding of [chess_board_locator.cpp]:

    - [findIntersection] is embedded over IEEE-754 binary64 values
      ([double]), taken bit-exactly from [SpecFloat]; every division it
      performs is recorded in a log, because what the function does on
      parallel and on perfectly vertical lines is decided by the special
      values a division by zero yields.
    - the point-cloud half of the callback (deduplication, corner candidates,
      fit score, search) is embedded twice.  Over [float], a NaN or an exact
      rational, it keeps the order of the comparisons and of the additions
      of the source and leaves rounding out: this carries the properties
      that rest on the outcome of comparisons alone.  In [Machine], the
      deduplication test and the fit error are embedded to the bit, in
      IEEE-754 binary32 with the [double] intermediates the C++ conversion
      rules give: this carries every property that rounding can affect.
    - OpenCV's line detector and PCL's centroid, rigid fit and point
      transformation are outside the repository: the callback is embedded
      from the detected [lines] on, and the PCL functions are the fields of
      the class [PCL]. *)

From Stdlib Require Import ZArith List Bool Lia QArith Qabs Lqa Permutation Sorted.
From Stdlib Require Import Floats.SpecFloat.
Import ListNotations.

Local Open Scope Z_scope.

(** ** 32-bit [int] arithmetic, two's complement *)

Module Int.

Definition modulus : Z := 2 ^ 32.
Definition half_modulus : Z := 2 ^ 31.
Definition min_signed : Z := - half_modulus.

Definition wrap (z : Z) : Z := (z + half_modulus) mod modulus - half_modulus.

Definition sub (x y : Z) : Z := wrap (x - y).
Definition abs (x : Z) : Z := wrap (Z.abs x).

Definition in_range (z : Z) : Prop := - half_modulus <= z < half_modulus.

End Int.

(** ** [double]: IEEE-754 binary64 *)

Module Double.

Definition prec : Z := 53.
Definition emax : Z := 1024.

Definition double := spec_float.

Definition of_int (z : Z) : double := binary_normalize prec emax z 0 false.

Definition add : double -> double -> double := SFadd prec emax.
Definition sub : double -> double -> double := SFsub prec emax.
Definition mul : double -> double -> double := SFmul prec emax.
Definition div : double -> double -> double := SFdiv prec emax.

Definition ltb : double -> double -> bool := SFltb.
Definition leb : double -> double -> bool := SFleb.
Definition eqb : double -> double -> bool := SFeqb.

Definition is_zero (x : double) : bool :=
  match x with S754_zero _ => true | _ => false end.

(** Neither a zero nor a finite number: an infinity or a NaN. *)
Definition is_special (x : double) : bool :=
  match x with S754_infinity _ | S754_nan => true | _ => false end.

(** [(int)x]: truncation toward zero.  A NaN, an infinity or a value outside
    [int] gives the "integer indefinite" value of the x86 conversion. *)
Definition to_int (x : double) : Z :=
  match x with
  | S754_zero _ => 0
  | S754_finite s m e =>
      let t := cond_Zopp s (Z.shiftl (Zpos m) e) in
      if (Int.min_signed <=? t) && (t <? Int.half_modulus) then t
      else Int.min_signed
  | _ => Int.min_signed
  end.

End Double.

(** ** Divisions are logged *)

Module Traced.

(** A computation that returns a value and the divisors of the divisions it
    performed, in program order. *)
Definition M (A : Type) : Type := (A * list Double.double)%type.

Definition ret {A} (a : A) : M A := (a, []).

Definition bind {A B} (m : M A) (k : A -> M B) : M B :=
  let (a, l1) := m in let (b, l2) := k a in (b, l1 ++ l2).

Definition divide (x y : Double.double) : M Double.double := (Double.div x y, [y]).

Definition value {A} (m : M A) : A := fst m.
Definition divisors {A} (m : M A) : list Double.double := snd m.

End Traced.

Notation "x <- c ;; k" := (Traced.bind c (fun x => k))
  (at level 61, c at next level, right associativity).

(** ** OpenCV value types *)

(** [cv::Vec4i]: a segment [(x1, y1, x2, y2)], [l[0] .. l[3]] in the source. *)
Record Vec4i := mkVec4i { v0 : Z; v1 : Z; v2 : Z; v3 : Z }.

(** [cv::Point] *)
Record Point := mkPoint { px : Z; py : Z }.

Definition image_width : Double.double := Double.of_int 640.
Definition image_height : Double.double := Double.of_int 480.
Definition dzero : Double.double := Double.of_int 0.

(** The sentinel [cv::Point(-1,-1)]. *)
Definition invalid : Point := mkPoint (-1) (-1).

Definition slope (a : Vec4i) : Traced.M Double.double :=
  Traced.divide (Double.of_int (Int.sub (v3 a) (v1 a)))
                (Double.of_int (Int.sub (v2 a) (v0 a))).

Definition intercept (a : Vec4i) (m : Double.double) : Double.double :=
  Double.sub (Double.of_int (v1 a)) (Double.mul m (Double.of_int (v0 a))).

Definition in_image (x y : Double.double) : bool :=
  Double.leb dzero x && Double.ltb x image_width &&
  Double.leb dzero y && Double.ltb y image_height.

Definition findIntersection_traced (a b : Vec4i) : Traced.M Point :=
  ma <- slope a ;;
  mb <- slope b ;;
  let ba := intercept a ma in
  let bb := intercept b mb in
  x <- Traced.divide (Double.sub bb ba) (Double.sub ma mb) ;;
  let y := Double.add (Double.mul ma x) ba in
  Traced.ret (if in_image x y
              then mkPoint (Double.to_int x) (Double.to_int y)
              else invalid).

Definition findIntersection (a b : Vec4i) : Point :=
  Traced.value (findIntersection_traced a b).

(** The coordinates [x] and [y] the function computes before its bounds test. *)
Definition intersection_xy (a b : Vec4i) : Double.double * Double.double :=
  let ma := Traced.value (slope a) in
  let mb := Traced.value (slope b) in
  let ba := intercept a ma in
  let bb := intercept b mb in
  let x := Double.div (Double.sub bb ba) (Double.sub ma mb) in
  (x, Double.add (Double.mul ma x) ba).

(** ** [float]: exact values and NaN *)

(** A coordinate of the point cloud, without rounding: a NaN or the exact
    value.  The sensor marks a pixel without a depth measurement by NaN
    coordinates.  This type carries what follows from the outcome of the
    comparisons and from NaN alone; what depends on rounding, or on
    infinities, is stated over [Machine] below. *)
Inductive float : Type :=
| FNaN
| FVal (q : Q).

Module Float.

Definition Qltb (a b : Q) : bool :=
  (Qnum a * QDen b <? Qnum b * QDen a)%Z.

Definition lift2 (f : Q -> Q -> Q) (a b : float) : float :=
  match a, b with
  | FVal p, FVal q => FVal (f p q)
  | _, _ => FNaN
  end.

Definition add : float -> float -> float := lift2 Qplus.
Definition sub : float -> float -> float := lift2 Qminus.
Definition mul : float -> float -> float := lift2 Qmult.

(** [abs] of a [float]: with [<cmath>] in scope through [using namespace
    std], the call resolves to [std::abs(float)]. *)
Definition abs (a : float) : float :=
  match a with
  | FVal q => FVal (Qabs q)
  | FNaN => FNaN
  end.

(** Every comparison with a NaN is false. *)
Definition ltb (a b : float) : bool :=
  match a, b with
  | FVal p, FVal q => Qltb p q
  | _, _ => false
  end.

Definition leb (a b : float) : bool :=
  match a, b with
  | FVal p, FVal q => Qle_bool p q
  | _, _ => false
  end.

Definition gtb (a b : float) : bool := ltb b a.

Definition of_int (z : Z) : float := FVal (inject_Z z).

Definition is_nan (a : float) : bool :=
  match a with FNaN => true | FVal _ => false end.

(** Equality of values: the two are NaN, or equal rationals. *)
Definition eq (a b : float) : Prop :=
  match a, b with
  | FVal p, FVal q => Qeq p q
  | FNaN, FNaN => True
  | _, _ => False
  end.

End Float.

(** ** [float] to the bit: IEEE-754 binary32 *)

Module Single.

Definition prec : Z := 24.
Definition emax : Z := 128.

Definition single := spec_float.

(** The conversion of an [int], rounded to nearest. *)
Definition of_int (z : Z) : single := binary_normalize prec emax z 0 false.

(** The [float] nearest to the decimal [n / d]. *)
Definition of_decimal (n d : Z) : single :=
  SFdiv prec emax (binary_normalize prec emax n 0 false)
                  (binary_normalize prec emax d 0 false).

Definition zero : single := S754_zero false.

Definition add : single -> single -> single := SFadd prec emax.
Definition sub : single -> single -> single := SFsub prec emax.
Definition abs : single -> single := SFabs.

Definition ltb : single -> single -> bool := SFltb.
Definition leb : single -> single -> bool := SFleb.

(** The promotion to [double], which is exact. *)
Definition to_double (x : single) : Double.double :=
  match x with
  | S754_finite s m e =>
      binary_normalize Double.prec Double.emax (cond_Zopp s (Zpos m)) e false
  | _ => x
  end.

(** The conversion of a [double] to [float], rounded to nearest. *)
Definition of_double (x : Double.double) : single :=
  match x with
  | S754_finite s m e => binary_normalize prec emax (cond_Zopp s (Zpos m)) e false
  | _ => x
  end.

Definition is_nan (x : single) : bool :=
  match x with S754_nan => true | _ => false end.

Definition is_zero (x : single) : bool :=
  match x with S754_zero _ => true | _ => false end.

(** Neither a NaN nor an infinity. *)
Definition is_finite (x : single) : bool :=
  match x with S754_zero _ | S754_finite _ _ _ => true | _ => false end.

End Single.

(** ** PCL value types *)

(** [pcl::PointXYZ], the source's [point]. *)
Module PointXYZ.
Record t := mk { x : float; y : float; z : float }.
End PointXYZ.

(** [pcl::PointXYZRGB], the source's [color_point]. *)
Module PointXYZRGB.
Record t := mk { x : float; y : float; z : float; rgb : Z }.
End PointXYZRGB.

Definition point : Type := PointXYZ.t.
Definition color_point : Type := PointXYZRGB.t.

(** An organized cloud, read as [cloud(column, row)]. *)
Definition PointCloudRGB : Type := Z -> Z -> color_point.

(** [Eigen::Vector4f] *)
Record Vector4f := mkVector4f { c0 : float; c1 : float; c2 : float; c3 : float }.

Definition origin : point :=
  PointXYZ.mk (FVal 0%Q) (FVal 0%Q) (FVal 0%Q).

(** A pixel is without measurement when a coordinate is NaN.  [float] has
    no infinities: the tests below say that no coordinate is a NaN. *)
Definition valid_point (p : point) : bool :=
  negb (Float.is_nan (PointXYZ.x p)) && negb (Float.is_nan (PointXYZ.y p))
  && negb (Float.is_nan (PointXYZ.z p)).

Definition valid_entry (cp : color_point) : bool :=
  negb (Float.is_nan (PointXYZRGB.x cp)) && negb (Float.is_nan (PointXYZRGB.y cp))
  && negb (Float.is_nan (PointXYZRGB.z cp)).

(** ** Step 4: horizontal and vertical lines *)

Definition default_line : Vec4i := mkVec4i 0 0 0 0.

Definition line_dx (l : Vec4i) : Z := Int.sub (v2 l) (v0 l).
Definition line_dy (l : Vec4i) : Z := Int.sub (v3 l) (v1 l).

(** The test [abs(dx) > abs(dy)]. *)
Definition is_horizontal (l : Vec4i) : bool :=
  Int.abs (line_dx l) >? Int.abs (line_dy l).

Record line_split := mkSplit { h_indexes : list nat; v_indexes : list nat }.

Definition split_step (lines : list Vec4i) (s : line_split) (i : nat) : line_split :=
  let l := nth i lines default_line in
  if is_horizontal l
  then mkSplit (h_indexes s ++ [i]) (v_indexes s)
  else mkSplit (h_indexes s) (v_indexes s ++ [i]).

Definition split_lines (lines : list Vec4i) : line_split :=
  fold_left (split_step lines) (seq 0 (length lines)) (mkSplit [] []).

(** ** Steps 5 and 6: intersections, looked up in the cloud and deduplicated *)

(** The threshold and the sum without rounding; [Machine.dedup_threshold]
    and [Machine.l1_distance] are the two to the bit. *)
Definition dedup_threshold : float := FVal (3 # 100).

(** [abs(tp.x-cp.x) + abs(tp.y-cp.y) + abs(tp.z-cp.z)] *)
Definition l1_distance (tp : point) (cp : color_point) : float :=
  Float.add
    (Float.add (Float.abs (Float.sub (PointXYZ.x tp) (PointXYZRGB.x cp)))
               (Float.abs (Float.sub (PointXYZ.y tp) (PointXYZRGB.y cp))))
    (Float.abs (Float.sub (PointXYZ.z tp) (PointXYZRGB.z cp))).

(** The scan over [data.points] that computes [include]; it stops at the
    first point closer than the threshold. *)
Fixpoint include_scan (points : list point) (cp : color_point) : bool :=
  match points with
  | [] => true
  | tp :: rest =>
      if Float.ltb (l1_distance tp cp) dedup_threshold then false
      else include_scan rest cp
  end.

Definition to_point (cp : color_point) : point :=
  PointXYZ.mk (PointXYZRGB.x cp) (PointXYZRGB.y cp) (PointXYZRGB.z cp).

(** What the body of the inner loop does with a point [p] returned by
    [findIntersection]. *)
(** [if(include) data.push_back( point(cp.x,cp.y,cp.z) )] after the scan. *)
Definition push_unless_duplicate (data : list point) (cp : color_point) : list point :=
  if include_scan data cp then data ++ [to_point cp] else data.

Definition lookup_and_add (cloud : PointCloudRGB) (data : list point) (p : Point)
  : list point :=
  if (px p >? 0) && (py p >? 0) then
    let cp := cloud (px p) (py p) in
    push_unless_duplicate data cp
  else data.

Definition add_intersection (cloud : PointCloudRGB) (hl : Vec4i)
  (data : list point) (vl : Vec4i) : list point :=
  lookup_and_add cloud data (findIntersection hl vl).

Definition all_intersections (cloud : PointCloudRGB) (lines : list Vec4i)
  (s : line_split) : list point :=
  fold_left
    (fun data i =>
       let hl := nth i lines default_line in
       fold_left
         (fun data j => add_intersection cloud hl data (nth j lines default_line))
         (v_indexes s) data)
    (h_indexes s) [].

(** ** Corner candidates *)

Definition margin : float := FVal (5 # 100).

Record candidates := mkCandidates {
  a1_candidates : list nat;
  a8_candidates : list nat;
  h1_candidates : list nat
}.

Definition is_a1 (centroid : Vector4f) (p : point) : bool :=
  Float.ltb (PointXYZ.x p) (Float.sub (c0 centroid) margin)
  && Float.gtb (PointXYZ.y p) (Float.add (c1 centroid) margin).

Definition is_a8 (centroid : Vector4f) (p : point) : bool :=
  Float.ltb (PointXYZ.x p) (Float.sub (c0 centroid) margin)
  && Float.ltb (PointXYZ.y p) (Float.sub (c1 centroid) margin).

Definition is_h1 (centroid : Vector4f) (p : point) : bool :=
  Float.gtb (PointXYZ.x p) (Float.add (c0 centroid) margin)
  && Float.gtb (PointXYZ.y p) (Float.add (c1 centroid) margin).

Definition candidate_step (centroid : Vector4f) (data : list point)
  (c : candidates) (i : nat) : candidates :=
  let p := nth i data origin in
  if is_a1 centroid p then
    mkCandidates (a1_candidates c ++ [i]) (a8_candidates c) (h1_candidates c)
  else if is_a8 centroid p then
    mkCandidates (a1_candidates c) (a8_candidates c ++ [i]) (h1_candidates c)
  else if is_h1 centroid p then
    mkCandidates (a1_candidates c) (a8_candidates c) (h1_candidates c ++ [i])
  else c.

Definition corner_candidates (centroid : Vector4f) (data : list point) : candidates :=
  fold_left (candidate_step centroid data) (seq 0 (length data))
            (mkCandidates [] [] []).

(** ** The ideal board and the fit error *)

Definition square : float := FVal (5715 # 100000).

Definition board : list point :=
  [ PointXYZ.mk square square (FVal 0%Q);
    PointXYZ.mk square (Float.mul square (Float.of_int 7)) (FVal 0%Q);
    PointXYZ.mk (Float.mul square (Float.of_int 7)) square (FVal 0%Q) ].

(** The values [1 .. 7] of the loop variables [x] and [y]. *)
Definition grid_range : list Z := map Z.of_nat (seq 1 7).

(** [iter]: the squared planar distance to the grid intersection [(gx, gy)],
    without rounding here and in [point_error] and [fit_error];
    [Machine.grid_distance], [Machine.point_error] and [Machine.fit_error]
    are the three to the bit. *)
Definition grid_distance (pt : point) (gx gy : Z) : float :=
  let dx := Float.sub (Float.mul square (Float.of_int gx)) (PointXYZ.x pt) in
  let dy := Float.sub (Float.mul square (Float.of_int gy)) (PointXYZ.y pt) in
  Float.add (Float.mul dx dx) (Float.mul dy dy).

Definition nearest_step (pt : point) (gx : Z) (e : float) (gy : Z) : float :=
  let iter := grid_distance pt gx gy in
  if Float.ltb iter e then iter else e.

Definition error_cap : float := FVal 1000%Q.

(** [e] after the two loops over the grid. *)
Definition point_error (pt : point) : float :=
  fold_left (fun e gx => fold_left (nearest_step pt gx) grid_range e)
            grid_range error_cap.

(** [error] after the loop over [data_transformed.points]. *)
Definition fit_error (data_transformed : list point) : float :=
  fold_left (fun error pt => Float.add error (point_error pt))
            data_transformed (FVal 0%Q).

(** ** PCL *)

(** The three PCL operations the callback calls.  [transformPointCloud]
    transforms point by point: [transformPoint] is what it does to one. *)
Class PCL : Type := {
  Matrix4f : Type;
  compute3DCentroid : list point -> Vector4f;
  estimateRigidTransformationSVD : list point -> list point -> Matrix4f;
  transformPoint : Matrix4f -> point -> point
}.

Definition transformPointCloud `{PCL} (data : list point) (t : Matrix4f)
  : list point :=
  map (transformPoint t) data.

(** ** Step 7: the search over the candidate triples *)

(** A local variable declared without an initializer. *)
Inductive slot (A : Type) : Type :=
| Uninitialized
| Assigned (a : A).

Arguments Uninitialized {A}.
Arguments Assigned {A} a.

Record search_state `{PCL} := mkState {
  best_score : float;
  best_transform : slot Matrix4f
}.

Arguments mkState {_} _ _.

Definition initial_state `{PCL} : search_state :=
  mkState (FVal (-1)%Q) Uninitialized.

(** The transform [t] of one triple and its [error]. *)
Definition evaluate `{PCL} (data : list point) (i j k : nat) : float * Matrix4f :=
  let a1 := nth i data origin in
  let a8 := nth j data origin in
  let h1 := nth k data origin in
  let candidates := [a1; a8; h1] in
  let t := estimateRigidTransformationSVD candidates board in
  let data_transformed := transformPointCloud data t in
  (fit_error data_transformed, t).

(** The update [if( (best_score < 0) || (error < best_score) )]. *)
Definition update `{PCL} (st : search_state) (r : float * Matrix4f) : search_state :=
  if Float.ltb (best_score st) (FVal 0%Q) || Float.ltb (fst r) (best_score st)
  then mkState (fst r) (Assigned (snd r))
  else st.

Definition search_from `{PCL} (data : list point) (c : candidates)
  (st0 : search_state) : search_state :=
  fold_left
    (fun st i =>
       fold_left
         (fun st j =>
            fold_left (fun st k => update st (evaluate data i j k))
                      (h1_candidates c) st)
         (a8_candidates c) st)
    (a1_candidates c) st0.

Definition search `{PCL} (data : list point) (c : candidates) : search_state :=
  search_from data c initial_state.

(** The triples in the order the three loops visit them. *)
Definition triples (c : candidates) : list (nat * nat * nat) :=
  flat_map
    (fun i => flat_map (fun j => map (fun k => (i, j, k)) (h1_candidates c))
                       (a8_candidates c))
    (a1_candidates c).

(** ** The callback, from the detected lines on *)

(** [br_.sendTransform]: the pose sent is the inverse of the matrix held by
    [best_transform]. *)
Inductive event `{PCL} : Type :=
| SendTransform (inverse_of : slot Matrix4f).

Arguments SendTransform {_} _.

(** The cloud [data] when the loops over the line pairs end. *)
Definition board_points (lines : list Vec4i) (cloud : PointCloudRGB) : list point :=
  all_intersections cloud lines (split_lines lines).

Definition callback_candidates `{PCL} (lines : list Vec4i) (cloud : PointCloudRGB)
  : candidates :=
  let data := board_points lines cloud in
  corner_candidates (compute3DCentroid data) data.

Definition callback_search `{PCL} (lines : list Vec4i) (cloud : PointCloudRGB)
  : search_state :=
  search (board_points lines cloud) (callback_candidates lines cloud).

Definition cameraCallback `{PCL} (lines : list Vec4i) (cloud : PointCloudRGB)
  : list event :=
  [SendTransform (best_transform (callback_search lines cloud))].

(** ** A PCL to run the callback with *)

(** Translations only: the matrix is its translation column, and the fit
    moves the first candidate onto the first board corner.  The centroid is
    the mean of the coordinates, and zero for an empty cloud. *)
Module Translation.

Definition sum_by (f : point -> float) (data : list point) : float :=
  fold_left (fun s p => Float.add s (f p)) data (FVal 0%Q).

Definition mean_by (f : point -> float) (data : list point) : float :=
  match data with
  | [] => FVal 0%Q
  | _ =>
      match sum_by f data with
      | FVal s => FVal (s / inject_Z (Z.of_nat (length data)))%Q
      | FNaN => FNaN
      end
  end.

Definition centroid (data : list point) : Vector4f :=
  mkVector4f (mean_by PointXYZ.x data) (mean_by PointXYZ.y data)
             (mean_by PointXYZ.z data) (FVal 0%Q).

Definition move (t p : point) : point :=
  PointXYZ.mk (Float.add (PointXYZ.x p) (PointXYZ.x t))
              (Float.add (PointXYZ.y p) (PointXYZ.y t))
              (Float.add (PointXYZ.z p) (PointXYZ.z t)).

Definition between (src dst : point) : point :=
  PointXYZ.mk (Float.sub (PointXYZ.x dst) (PointXYZ.x src))
              (Float.sub (PointXYZ.y dst) (PointXYZ.y src))
              (Float.sub (PointXYZ.z dst) (PointXYZ.z src)).

Definition fit (src dst : list point) : point :=
  between (hd origin src) (hd origin dst).

Definition pcl : PCL :=
  {| Matrix4f := point;
     compute3DCentroid := centroid;
     estimateRigidTransformationSVD := fit;
     transformPoint := move |}.

End Translation.

(** ** The deduplication test and the fit error to the bit *)

(** The scan over [data.points] and the error loops with every rounding of
    the machine: a coordinate is a binary32 value, a [float] that meets a
    [double] literal is promoted first, and an assignment to a [float]
    rounds to nearest.  Every operation is rounded on its own, in the
    precision of its type: no wider intermediate, no fused multiply-add. *)
Module Machine.

Module PointXYZ.
Record t := mk { x : Single.single; y : Single.single; z : Single.single }.
End PointXYZ.

Module PointXYZRGB.
Record t := mk { x : Single.single; y : Single.single; z : Single.single; rgb : Z }.
End PointXYZRGB.

Definition point : Type := PointXYZ.t.
Definition color_point : Type := PointXYZRGB.t.

Definition PointCloudRGB : Type := Z -> Z -> color_point.

(** The literal [0.03], a [double]. *)
Definition dedup_threshold : Double.double :=
  Double.div (Double.of_int 3) (Double.of_int 100).

(** [abs(tp.x-cp.x) + abs(tp.y-cp.y) + abs(tp.z-cp.z)], a [float]. *)
Definition l1_distance (tp : point) (cp : color_point) : Single.single :=
  Single.add
    (Single.add (Single.abs (Single.sub (PointXYZ.x tp) (PointXYZRGB.x cp)))
                (Single.abs (Single.sub (PointXYZ.y tp) (PointXYZRGB.y cp))))
    (Single.abs (Single.sub (PointXYZ.z tp) (PointXYZRGB.z cp))).

(** The test [... < 0.03]: the sum is promoted to [double]. *)
Definition closer (tp : point) (cp : color_point) : bool :=
  Double.ltb (Single.to_double (l1_distance tp cp)) dedup_threshold.

Fixpoint include_scan (points : list point) (cp : color_point) : bool :=
  match points with
  | [] => true
  | tp :: rest => if closer tp cp then false else include_scan rest cp
  end.

Definition to_point (cp : color_point) : point :=
  PointXYZ.mk (PointXYZRGB.x cp) (PointXYZRGB.y cp) (PointXYZRGB.z cp).

Definition push_unless_duplicate (data : list point) (cp : color_point) : list point :=
  if include_scan data cp then data ++ [to_point cp] else data.

Definition lookup_and_add (cloud : PointCloudRGB) (data : list point) (p : Point)
  : list point :=
  if (px p >? 0) && (py p >? 0) then
    let cp := cloud (px p) (py p) in
    push_unless_duplicate data cp
  else data.

Definition add_intersection (cloud : PointCloudRGB) (hl : Vec4i)
  (data : list point) (vl : Vec4i) : list point :=
  lookup_and_add cloud data (findIntersection hl vl).

Definition all_intersections (cloud : PointCloudRGB) (lines : list Vec4i)
  (s : line_split) : list point :=
  fold_left
    (fun data i =>
       let hl := nth i lines default_line in
       fold_left
         (fun data j => add_intersection cloud hl data (nth j lines default_line))
         (v_indexes s) data)
    (h_indexes s) [].

Definition board_points (lines : list Vec4i) (cloud : PointCloudRGB) : list point :=
  all_intersections cloud lines (split_lines lines).

(** The literal [0.05715], a [double]. *)
Definition square : Double.double :=
  Double.div (Double.of_int 5715) (Double.of_int 100000).

(** [0.05715*g - c], in [double]: [g] is converted, [c] promoted. *)
Definition grid_offset (g : Z) (c : Single.single) : Double.double :=
  Double.sub (Double.mul square (Double.of_int g)) (Single.to_double c).

(** [iter]: the sum of the two squares, in [double], rounded to [float]. *)
Definition grid_distance (pt : point) (gx gy : Z) : Single.single :=
  let dx := grid_offset gx (PointXYZ.x pt) in
  let dy := grid_offset gy (PointXYZ.y pt) in
  Single.of_double (Double.add (Double.mul dx dx) (Double.mul dy dy)).

Definition nearest_step (pt : point) (gx : Z) (e : Single.single) (gy : Z)
  : Single.single :=
  let iter := grid_distance pt gx gy in
  if Single.ltb iter e then iter else e.

Definition error_cap : Single.single := Single.of_int 1000.

(** [e] after the two loops over the grid. *)
Definition point_error (pt : point) : Single.single :=
  fold_left (fun e gx => fold_left (nearest_step pt gx) grid_range e)
            grid_range error_cap.

(** [error] after the loop over [data_transformed.points]. *)
Definition fit_error (data_transformed : list point) : Single.single :=
  fold_left (fun error pt => Single.add error (point_error pt))
            data_transformed Single.zero.

(** [pcl::transformPointCloud] moves the points one by one and keeps their
    order; [transform] is what the matrix [t] does to a point. *)
Definition transformPointCloud (transform : point -> point) (data : list point)
  : list point :=
  map transform data.

End Machine.

(** ** Vocabulary of the statements *)

(** Coordinates of a pixel, or any coordinates below [2^30] in magnitude. *)
Definition small_coordinates (l : Vec4i) : Prop :=
  Z.abs (v0 l) < 2 ^ 30 /\ Z.abs (v1 l) < 2 ^ 30 /\
  Z.abs (v2 l) < 2 ^ 30 /\ Z.abs (v3 l) < 2 ^ 30.

Definition horizontal_at (lines : list Vec4i) (i : nat) : bool :=
  is_horizontal (nth i lines default_line).

(** A line of zero horizontal extent, or two lines of equal computed slope. *)
Definition degenerate (a b : Vec4i) : Prop :=
  line_dx a = 0 \/ line_dx b = 0 \/
  Double.eqb (Traced.value (slope a)) (Traced.value (slope b)) = true.

(** A cloud without any measurement. *)
Definition blind_cloud : PointCloudRGB :=
  fun _ _ => PointXYZRGB.mk FNaN FNaN FNaN 0.

(** The three tests of the [if / else if] chain, for the point of index [i]. *)
Definition picks_a1 (centroid : Vector4f) (data : list point) (i : nat) : bool :=
  is_a1 centroid (nth i data origin).

Definition picks_a8 (centroid : Vector4f) (data : list point) (i : nat) : bool :=
  negb (is_a1 centroid (nth i data origin)) && is_a8 centroid (nth i data origin).

Definition picks_h1 (centroid : Vector4f) (data : list point) (i : nat) : bool :=
  negb (is_a1 centroid (nth i data origin))
  && negb (is_a8 centroid (nth i data origin))
  && is_h1 centroid (nth i data origin).

(** The offset of [p] from [c] has magnitude at most the margin. *)
Definition within_margin (p c : float) : bool :=
  Float.leb (Float.abs (Float.sub p c)) margin.

(** Keep the smaller of [e] and [d]; [e] stays when [d] is a NaN. *)
Definition min_step (e d : float) : float :=
  if Float.ltb d e then d else e.

(** The 49 values of [iter], in the order the two loops compute them. *)
Definition grid_distances (pt : point) : list float :=
  flat_map (fun gx => map (grid_distance pt gx) grid_range) grid_range.

(** [(0.05715*gx - x)^2 + (0.05715*gy - y)^2] *)
Definition planar_distance (x y : Q) (gx gy : Z) : Q :=
  (((5715 # 100000) * inject_Z gx - x) * ((5715 # 100000) * inject_Z gx - x)
   + ((5715 # 100000) * inject_Z gy - y) * ((5715 # 100000) * inject_Z gy - y))%Q.

Definition float_value (a : float) : Q :=
  match a with FVal q => q | FNaN => 0%Q end.

Definition error_value (pt : point) : Q := float_value (point_error pt).

Definition qsum (l : list Q) : Q := fold_right Qplus 0%Q l.

(** [0.05715 * g], a coordinate of the ideal grid. *)
Definition grid_coordinate (g : Z) : float := Float.mul square (Float.of_int g).

(** [x] and [y] are those of one of the 49 interior intersections. *)
Definition on_grid_xy (pt : point) : Prop :=
  exists gx gy, 1 <= gx <= 7 /\ 1 <= gy <= 7
                /\ Float.eq (PointXYZ.x pt) (grid_coordinate gx)
                /\ Float.eq (PointXYZ.y pt) (grid_coordinate gy).

(** The transforms and errors of the triples, in the order of the loops. *)
Definition results `{PCL} (data : list point) (c : candidates)
  : list (float * Matrix4f) :=
  map (fun '(i, j, k) => evaluate data i j k) (triples c).

(** The error of the cloud, as a number. *)
Definition fit_value (l : list point) : Q :=
  fold_left Qplus (map error_value l) 0%Q.

(** [r] is at position [n] of [rs], no entry of [rs] has a lower error, and
    every entry before position [n] has a higher one. *)
Definition first_minimum {M} (rs : list (float * M)) (n : nat) (r : float * M) : Prop :=
  nth_error rs n = Some r
  /\ (forall m r', nth_error rs m = Some r' -> Float.leb (fst r) (fst r') = true)
  /\ (forall m r', (m < n)%nat -> nth_error rs m = Some r' ->
                   Float.ltb (fst r) (fst r') = true).

(** An error that is a number and not negative. *)
Definition proper_error {M} (r : float * M) : Prop :=
  exists q, fst r = FVal q /\ (0 <= q)%Q.

(** What the state holds after the results [pre] have gone through
    [update]: nothing yet, or the first result of least error. *)
Definition holds_best `{PCL} (pre : list (float * Matrix4f)) (st : search_state)
  : Prop :=
  match pre with
  | [] => st = initial_state
  | _ :: _ =>
      exists n r, first_minimum pre n r
                  /\ st = mkState (fst r) (Assigned (snd r))
  end.

(** Four points: two candidates for a1, one for a8 and one for h1. *)
Definition four_points : list point :=
  [ PointXYZ.mk (FVal 0) (FVal 0) (FVal 0);
    PointXYZ.mk (FVal 0) (FVal 1) (FVal 0);
    PointXYZ.mk (FVal 1) (FVal 1) (FVal 0);
    PointXYZ.mk (FVal (1 # 10)) (FVal (9 # 10)) (FVal 0) ].

Definition four_points_candidates : candidates :=
  corner_candidates (Translation.centroid four_points) four_points.

(** ** Step 1: the blue channel of the image *)

(** [cv::Mat] with 8-bit elements: [ptr i] is the row of bytes
    [image.ptr<char>(i)]. *)
Record Mat := mkMat { rows : nat; cols : nat; ptr : nat -> list Z }.

(** The inner loop [Ii[j] = Di[j*3]] over one row of [n] pixels. *)
Definition blue_row (n : nat) (Di : list Z) : list Z :=
  map (fun j => nth (j * 3) Di 0) (seq 0 n).

(** The single-channel matrix [src] after the two loops, row by row. *)
Definition blue_plane (image : Mat) : list (list Z) :=
  map (fun i => blue_row (cols image) (ptr image i)) (seq 0 (rows image)).

(** A pixel, and the bytes of a row of pixels in the "bgr8" encoding that
    the callback asks [cv_bridge] for. *)
Record BGR := mkBGR { blue : Z; green : Z; red : Z }.

Definition bgr8 (pixels : list BGR) : list Z :=
  flat_map (fun p => [blue p; green p; red p]) pixels.

(** ** Vocabulary of the further properties *)

(** A [double] has a mantissa of at most 53 bits. *)
Definition mantissa_fits (x : Double.double) : Prop :=
  match x with
  | S754_finite _ m _ => Zpos (digits2_pos m) <= Double.prec
  | _ => True
  end.

(** The pixels at which the callback can read the cloud. *)
Definition looked_up (x y : Z) : Prop := 1 <= x <= 639 /\ 1 <= y <= 479.

(** A retained point, offered again as an entry of the cloud. *)
Definition as_entry (q : point) : color_point :=
  PointXYZRGB.mk (PointXYZ.x q) (PointXYZ.y q) (PointXYZ.z q) 0.

Definition same_members (l l' : list nat) : Prop := forall i, In i l <-> In i l'.

(** The blind cloud inside the image, and the origin at every other pixel. *)
Definition framed_cloud : PointCloudRGB :=
  fun x y =>
    if (1 <=? x) && (x <=? 639) && (1 <=? y) && (y <=? 479)
    then blind_cloud x y
    else PointXYZRGB.mk (FVal 0) (FVal 0) (FVal 0) 0.

(** A horizontal segment crossed by one steep and by one upright segment. *)
Definition crossing_lines : list Vec4i :=
  [mkVec4i 0 100 600 100; mkVec4i 100 0 101 450].

Definition upright_lines : list Vec4i :=
  [mkVec4i 0 100 600 100; mkVec4i 100 0 100 450].

(** An image of one row of two pixels. *)
Definition two_pixels : list BGR := [mkBGR 1 2 3; mkBGR 4 5 6].

Definition two_pixel_image : Mat := mkMat 1 2 (fun _ => [1; 2; 3; 4; 5; 6]).

(** ** Vocabulary of the properties to the bit *)

(** Not a NaN and not below zero; an infinity is allowed. *)
Definition nonneg (x : spec_float) : Prop :=
  match x with
  | S754_zero _ => True
  | S754_infinity s => s = false
  | S754_finite s _ _ => s = false
  | S754_nan => False
  end.

(** The running minimum of the error loops, one step. *)
Definition machine_min_step (e d : Single.single) : Single.single :=
  if Single.ltb d e then d else e.

(** The 49 values of [iter], in the order of the loops. *)
Definition machine_grid_distances (pt : Machine.point) : list Single.single :=
  flat_map (fun gx => map (fun gy => Machine.grid_distance pt gx gy) grid_range)
           grid_range.

(** The real number a finite [float] or [double] stands for. *)
Definition exact_value (x : spec_float) : Q :=
  match x with
  | S754_finite s m e => inject_Z (cond_Zopp s (Zpos m)) * (2 # 1) ^ e
  | _ => 0
  end.

(** The L1 distance of two points of finite coordinates, without rounding. *)
Definition exact_l1 (tp : Machine.point) (cp : Machine.color_point) : Q :=
  Qabs (exact_value (Machine.PointXYZ.x tp) - exact_value (Machine.PointXYZRGB.x cp))
  + Qabs (exact_value (Machine.PointXYZ.y tp) - exact_value (Machine.PointXYZRGB.y cp))
  + Qabs (exact_value (Machine.PointXYZ.z tp) - exact_value (Machine.PointXYZRGB.z cp)).

(** The three coordinates of an entry are finite numbers. *)
Definition finite_entry (cp : Machine.color_point) : bool :=
  Single.is_finite (Machine.PointXYZRGB.x cp)
  && Single.is_finite (Machine.PointXYZRGB.y cp)
  && Single.is_finite (Machine.PointXYZRGB.z cp).

(** [q] does not pass the test of the scan against [tp]. *)
Definition machine_apart (tp q : Machine.point) : Prop :=
  Machine.closer tp
    (Machine.PointXYZRGB.mk (Machine.PointXYZ.x q) (Machine.PointXYZ.y q)
                            (Machine.PointXYZ.z q) 0) = false.



Definition machine_origin : Machine.point :=
  Machine.PointXYZ.mk Single.zero Single.zero Single.zero.

(** NaN, or not below zero. *)
Definition nonneg_or_nan (x : spec_float) : Prop := x = S754_nan \/ nonneg x.

(** The exponent of a finite value is not below the least exponent of the
    format. *)
Definition grounded (prec emax : Z) (x : spec_float) : Prop :=
  match x with
  | S754_finite _ _ e => emin prec emax <= e
  | _ => True
  end.

(** What the error loops hold in a [float]: not a NaN, not negative, and
    grounded. *)
Definition proper (x : Single.single) : Prop :=
  nonneg x /\ grounded Single.prec Single.emax x.

(** A value of the format: at most [prec] bits of mantissa and an exponent
    within the range of the format. *)
Definition representable (prec emax : Z) (x : spec_float) : Prop :=
  match x with
  | S754_finite _ m e =>
      Zpos (digits2_pos m) <= prec /\ emin prec emax <= e <= emax - prec
  | _ => True
  end.

(** The coordinates are values of the [float] format. *)
Definition float_point (p : Machine.point) : Prop :=
  representable Single.prec Single.emax (Machine.PointXYZ.x p)
  /\ representable Single.prec Single.emax (Machine.PointXYZ.y p)
  /\ representable Single.prec Single.emax (Machine.PointXYZ.z p).

Definition float_entry (cp : Machine.color_point) : Prop :=
  float_point (Machine.to_point cp).

(** The entry [(0.02f, 0.01f, 7e-10f)]. *)
Definition near_entry : Machine.color_point :=
  Machine.PointXYZRGB.mk (Single.of_decimal 2 100) (Single.of_decimal 1 100)
                         (Single.of_decimal 7 10000000000) 0.

(** The entry [(0.02f, 10737415 * 2^-30, 7 * 2^-31)]. *)
Definition far_entry : Machine.color_point :=
  Machine.PointXYZRGB.mk (Single.of_decimal 2 100)
                         (S754_finite false 10737415 (-30))
                         (S754_finite false 14680064 (-52)) 0.



Definition infinite_entry : Machine.color_point :=
  Machine.PointXYZRGB.mk (S754_infinity false) Single.zero Single.zero 0.

(** * Properties *)

(** ** [int] arithmetic within range *)

Lemma wrap_in_range (z : Z) : Int.in_range z -> Int.wrap z = z.
Proof.
  unfold Int.in_range, Int.wrap, Int.modulus, Int.half_modulus. intros Hz.
  rewrite Z.mod_small; lia.
Qed.

Lemma extents_exact (l : Vec4i) :
  small_coordinates l ->
  Int.abs (line_dx l) = Z.abs (v2 l - v0 l) /\
  Int.abs (line_dy l) = Z.abs (v3 l - v1 l).
Proof.
  unfold small_coordinates, line_dx, line_dy, Int.abs, Int.sub.
  intros (H0 & H1 & H2 & H3).
  assert (Hx : Int.in_range (v2 l - v0 l))
    by (unfold Int.in_range, Int.half_modulus; lia).
  assert (Hy : Int.in_range (v3 l - v1 l))
    by (unfold Int.in_range, Int.half_modulus; lia).
  rewrite (wrap_in_range _ Hx), (wrap_in_range _ Hy).
  split; apply wrap_in_range; unfold Int.in_range, Int.half_modulus in *; lia.
Qed.

(** ** Line classification *)

Lemma split_fold (lines : list Vec4i) (l : list nat) (s : line_split) :
  fold_left (split_step lines) l s =
  mkSplit (h_indexes s ++ filter (horizontal_at lines) l)
          (v_indexes s ++ filter (fun i => negb (horizontal_at lines i)) l).
Proof.
  revert s. induction l as [|i l IH]; intros [h v]; simpl.
  - now rewrite !app_nil_r.
  - rewrite IH. unfold split_step, horizontal_at. simpl.
    destruct (is_horizontal (nth i lines default_line)); simpl;
      now rewrite <- ?app_assoc.
Qed.

Lemma split_lines_filter (lines : list Vec4i) :
  split_lines lines =
  mkSplit (filter (horizontal_at lines) (seq 0 (length lines)))
          (filter (fun i => negb (horizontal_at lines i)) (seq 0 (length lines))).
Proof. unfold split_lines. now rewrite split_fold. Qed.

Lemma filter_partition_perm {A} (p : A -> bool) (l : list A) :
  Permutation (filter p l ++ filter (fun a => negb (p a)) l) l.
Proof.
  induction l as [|a l IH]; simpl; [constructor|].
  destruct (p a); simpl.
  - now constructor.
  - apply Permutation_sym, Permutation_cons_app, Permutation_sym, IH.
Qed.

(** C6, as the code has it: a segment is horizontal exactly when
    [abs(dx) > abs(dy)], and vertical otherwise, so a segment with equal
    absolute extents is vertical.  The two index lists together hold every
    index [0 .. n-1] exactly once, and no index is in both.  For
    coordinates that do not overflow, [abs(dx)] and [abs(dy)] are the
    absolute extents [|x2 - x1|] and [|y2 - y1|]. *)
Theorem C6_classification (lines : list Vec4i) :
  let s := split_lines lines in
  let n := length lines in
  Permutation (h_indexes s ++ v_indexes s) (seq 0 n)
  /\ (forall i, In i (h_indexes s) <->
                (i < n)%nat /\
                Int.abs (line_dx (nth i lines default_line))
                > Int.abs (line_dy (nth i lines default_line)))
  /\ (forall i, In i (v_indexes s) <->
                (i < n)%nat /\
                Int.abs (line_dx (nth i lines default_line))
                <= Int.abs (line_dy (nth i lines default_line)))
  /\ (forall i, In i (h_indexes s) -> In i (v_indexes s) -> False)
  /\ (forall i, small_coordinates (nth i lines default_line) ->
                (In i (v_indexes s) <->
                 (i < n)%nat /\
                 Z.abs (v2 (nth i lines default_line) - v0 (nth i lines default_line))
                 <= Z.abs (v3 (nth i lines default_line) - v1 (nth i lines default_line)))).
Proof.
  cbv zeta. rewrite split_lines_filter. cbn [h_indexes v_indexes].
  assert (Hh : forall i, In i (filter (horizontal_at lines) (seq 0 (length lines)))
               <-> (i < length lines)%nat /\
                   Int.abs (line_dx (nth i lines default_line))
                   > Int.abs (line_dy (nth i lines default_line))).
  { intros i. rewrite filter_In, in_seq. unfold horizontal_at, is_horizontal.
    rewrite Z.gtb_gt. lia. }
  assert (Hv : forall i,
             In i (filter (fun i => negb (horizontal_at lines i))
                          (seq 0 (length lines)))
             <-> (i < length lines)%nat /\
                 Int.abs (line_dx (nth i lines default_line))
                 <= Int.abs (line_dy (nth i lines default_line))).
  { intros i. rewrite filter_In, in_seq, negb_true_iff.
    unfold horizontal_at, is_horizontal.
    rewrite Z.gtb_ltb, Z.ltb_ge. lia. }
  split; [apply filter_partition_perm|].
  split; [exact Hh|].
  split; [exact Hv|].
  split.
  - intros i H1 H2. apply Hh in H1. apply Hv in H2. lia.
  - intros i Hsmall. destruct (extents_exact _ Hsmall) as [Hx Hy].
    rewrite Hv, Hx, Hy. reflexivity.
Qed.

(** C6 as the claim words it fails: the diagonal segment from [(0,0)] to
    [(10,10)] has equal extents and is put with the vertical lines. *)
Lemma C6_tie_is_vertical :
  let l := mkVec4i 0 0 10 10 in
  Z.abs (v2 l - v0 l) = Z.abs (v3 l - v1 l)
  /\ is_horizontal l = false
  /\ split_lines [l] = mkSplit [] [0%nat].
Proof. repeat split. Qed.

(** ** [findIntersection] on degenerate pairs *)

Lemma findIntersection_xy (a b : Vec4i) :
  findIntersection a b =
  let (x, y) := intersection_xy a b in
  if in_image x y then mkPoint (Double.to_int x) (Double.to_int y) else invalid.
Proof. reflexivity. Qed.

(** The three divisions are performed whatever the lines are. *)
Lemma findIntersection_divisors (a b : Vec4i) :
  Traced.divisors (findIntersection_traced a b) =
  [ Double.of_int (line_dx a);
    Double.of_int (line_dx b);
    Double.sub (Traced.value (slope a)) (Traced.value (slope b)) ].
Proof. reflexivity. Qed.

Section SpecialValues.

Import Double.

Ltac by_cases x := destruct x as [[|]|[|]| |[|] ? ?].

Lemma div_zero_special (x y : double) :
  is_zero y = true -> is_special (div x y) = true.
Proof. by_cases x; by_cases y; simpl; intros H; try discriminate; reflexivity. Qed.

Lemma div_nan_r (x : double) : div x S754_nan = S754_nan.
Proof. by_cases x; reflexivity. Qed.

Lemma div_special_special (x y : double) :
  is_special x = true -> is_special y = true -> div x y = S754_nan.
Proof.
  by_cases x; by_cases y; simpl; intros Hx Hy; try discriminate; reflexivity.
Qed.

Lemma mul_special_l (x y : double) :
  is_special x = true -> is_special (mul x y) = true.
Proof. by_cases x; by_cases y; simpl; intros H; try discriminate; reflexivity. Qed.

Lemma sub_special_l (x y : double) :
  is_special x = true -> is_special (sub x y) = true.
Proof. by_cases x; by_cases y; simpl; intros H; try discriminate; reflexivity. Qed.

Lemma sub_special_r (x y : double) :
  is_special y = true -> is_special (sub x y) = true.
Proof. by_cases x; by_cases y; simpl; intros H; try discriminate; reflexivity. Qed.

Lemma compare_eq_finite (m1 m2 : positive) (e1 e2 : Z) :
  match (e1 ?= e2)%Z with
  | Lt => Lt | Gt => Gt | Eq => Pos.compare_cont Eq m1 m2
  end = Eq ->
  e1 = e2 /\ m1 = m2.
Proof.
  destruct (Z.compare_spec e1 e2) as [He| |]; try discriminate.
  intros H. split; [exact He|]. now apply Pos.compare_eq.
Qed.

Lemma eqb_finite_inv (s1 s2 : bool) (m1 m2 : positive) (e1 e2 : Z) :
  eqb (S754_finite s1 m1 e1) (S754_finite s2 m2 e2) = true ->
  s1 = s2 /\ m1 = m2 /\ e1 = e2.
Proof.
  unfold eqb, SFeqb, SFcompare.
  destruct s1, s2; try discriminate.
  - destruct (Z.compare_spec e1 e2) as [He| |]; try discriminate.
    destruct (Pos.compare_cont Eq m1 m2) eqn:Hm; try discriminate.
    intros _. apply Pos.compare_eq in Hm. auto.
  - destruct (Z.compare_spec e1 e2) as [He| |]; try discriminate.
    destruct (Pos.compare_cont Eq m1 m2) eqn:Hm; try discriminate.
    intros _. apply Pos.compare_eq in Hm. auto.
Qed.

Lemma sub_finite_diag (s : bool) (m : positive) (e : Z) :
  sub (S754_finite s m e) (S754_finite s m e) = S754_zero false.
Proof. unfold sub, SFsub. now rewrite Z.sub_diag. Qed.

(** Equal slopes: their difference is a zero, or a NaN when both are the
    same infinity. *)
Lemma sub_of_equal (x y : double) :
  eqb x y = true -> is_zero (sub x y) = true \/ sub x y = S754_nan.
Proof.
  by_cases x; by_cases y; intros H; try discriminate H;
    try (left; reflexivity); try (right; reflexivity);
    apply eqb_finite_inv in H; destruct H as (Hs & -> & ->);
    try discriminate Hs; rewrite sub_finite_diag; now left.
Qed.

Lemma in_image_special (x y : double) :
  is_special x = true -> in_image x y = false.
Proof.
  by_cases x; simpl; intros H; try discriminate; reflexivity.
Qed.

End SpecialValues.

(** A pair whose first coordinate is an infinity or a NaN gets the sentinel. *)
Lemma special_x_invalid (a b : Vec4i) :
  Double.is_special (fst (intersection_xy a b)) = true ->
  findIntersection a b = invalid.
Proof.
  rewrite findIntersection_xy. destruct (intersection_xy a b) as [x y]. simpl.
  intros H. now rewrite in_image_special.
Qed.

(** A pair whose coordinates fail the bounds test gets the sentinel. *)
Lemma outside_image_invalid (a b : Vec4i) :
  in_image (fst (intersection_xy a b)) (snd (intersection_xy a b)) = false ->
  findIntersection a b = invalid.
Proof.
  rewrite findIntersection_xy. destruct (intersection_xy a b) as [x y]. simpl.
  now intros ->.
Qed.

Lemma of_int_zero : Double.of_int 0 = S754_zero false.
Proof. reflexivity. Qed.

Lemma slope_vertical_special (a : Vec4i) :
  line_dx a = 0 -> Double.is_special (Traced.value (slope a)) = true.
Proof.
  unfold slope, Traced.divide, Traced.value, line_dx. simpl. intros ->.
  now apply div_zero_special.
Qed.

Lemma intercept_special (a : Vec4i) (m : Double.double) :
  Double.is_special m = true -> Double.is_special (intercept a m) = true.
Proof.
  intros H. unfold intercept. now apply sub_special_r, mul_special_l.
Qed.

Lemma intersection_x (a b : Vec4i) :
  fst (intersection_xy a b) =
  Double.div
    (Double.sub (intercept b (Traced.value (slope b)))
                (intercept a (Traced.value (slope a))))
    (Double.sub (Traced.value (slope a)) (Traced.value (slope b))).
Proof. reflexivity. Qed.

Lemma vertical_first_invalid (a b : Vec4i) :
  line_dx a = 0 -> findIntersection a b = invalid.
Proof.
  intros H. apply special_x_invalid. rewrite intersection_x.
  pose proof (slope_vertical_special a H) as Hm.
  rewrite div_special_special; [reflexivity| |].
  - now apply sub_special_r, intercept_special.
  - now apply sub_special_l.
Qed.

Lemma vertical_second_invalid (a b : Vec4i) :
  line_dx b = 0 -> findIntersection a b = invalid.
Proof.
  intros H. apply special_x_invalid. rewrite intersection_x.
  pose proof (slope_vertical_special b H) as Hm.
  rewrite div_special_special; [reflexivity| |].
  - now apply sub_special_l, intercept_special.
  - now apply sub_special_r.
Qed.

Lemma equal_slopes_invalid (a b : Vec4i) :
  Double.eqb (Traced.value (slope a)) (Traced.value (slope b)) = true ->
  findIntersection a b = invalid.
Proof.
  intros H. apply special_x_invalid. rewrite intersection_x.
  destruct (sub_of_equal _ _ H) as [Hz | Hn].
  - now apply div_zero_special.
  - rewrite Hn, div_nan_r. reflexivity.
Qed.

(** The caller's test [p.x > 0 && p.y > 0] rejects the sentinel. *)
Lemma invalid_skipped (cloud : PointCloudRGB) (data : list point) :
  lookup_and_add cloud data invalid = data.
Proof. reflexivity. Qed.

(** C2, as the code has it: on a pair with a line of zero horizontal extent
    or with equal slopes, [findIntersection] returns the sentinel
    [(-1,-1)] and the callback adds no point for the pair.  Nothing tests
    for the condition: the three divisions are carried out as for any
    other pair, and the sentinel comes from the bounds test, which an
    infinity or a NaN fails. *)
Theorem C2_degenerate_pair_invalid (a b : Vec4i) :
  degenerate a b ->
  findIntersection a b = invalid
  /\ (forall cloud data, add_intersection cloud a data b = data)
  /\ length (Traced.divisors (findIntersection_traced a b)) = 3%nat.
Proof.
  intros H.
  assert (Hi : findIntersection a b = invalid).
  { destruct H as [H | [H | H]].
    - now apply vertical_first_invalid.
    - now apply vertical_second_invalid.
    - now apply equal_slopes_invalid. }
  split; [exact Hi|]. split; [|reflexivity].
  intros cloud data. unfold add_intersection. rewrite Hi. apply invalid_skipped.
Qed.

Lemma C2_degenerate_pair_invalid_witness :
  let a := mkVec4i 5 0 5 10 in
  let b := mkVec4i 0 0 1 100 in
  degenerate a b /\ findIntersection a b = invalid.
Proof.
  intros a b.
  assert (H : degenerate a b) by (left; reflexivity).
  split; [exact H|]. exact (proj1 (C2_degenerate_pair_invalid a b H)).
Defined.

(** C2 as the claim words it fails: for the vertical segment from [(5,0)] to
    [(5,10)] the first division is by zero, and for two parallel segments
    the third one is. *)
Lemma C2_division_by_zero_performed :
  let a := mkVec4i 5 0 5 10 in
  let b := mkVec4i 0 0 1 100 in
  let c := mkVec4i 0 0 100 10 in
  let d := mkVec4i 5 50 105 60 in
  degenerate a b
  /\ nth 0 (Traced.divisors (findIntersection_traced a b)) S754_nan = S754_zero false
  /\ degenerate c d
  /\ nth 2 (Traced.divisors (findIntersection_traced c d)) S754_nan = S754_zero false.
Proof.
  cbv zeta. split; [left; reflexivity|]. split; [reflexivity|].
  split; [right; right; vm_compute; reflexivity|]. vm_compute. reflexivity.
Qed.

(** ** Intersections in the first column or the first row *)

(** What the caller does with the point [findIntersection] returns. *)
Lemma lookup_and_add_positive (cloud : PointCloudRGB) (data : list point) (p : Point) :
  px p > 0 -> py p > 0 ->
  lookup_and_add cloud data p = push_unless_duplicate data (cloud (px p) (py p)).
Proof.
  intros Hx Hy. unfold lookup_and_add.
  apply Z.gtb_gt in Hx, Hy. now rewrite Hx, Hy.
Qed.

Lemma lookup_and_add_border (cloud : PointCloudRGB) (data : list point) (p : Point) :
  px p <= 0 \/ py p <= 0 -> lookup_and_add cloud data p = data.
Proof.
  intros H. unfold lookup_and_add.
  destruct (px p >? 0) eqn:Hx; [|reflexivity].
  destruct (py p >? 0) eqn:Hy; [|reflexivity].
  apply Z.gtb_gt in Hx, Hy. lia.
Qed.

(** C7 at the failing input: the horizontal segment [(0,10)-(100,10)] and
    the steep segment [(0,0)-(1,100)] meet at [x = 0.1], [y = 10].  The point
    passes the bounds test of [findIntersection], which returns pixel
    [(0,10)], and the caller's test [p.x > 0 && p.y > 0] drops it: no board
    point is produced, whatever the cloud holds. *)
Theorem C7_first_column_dropped :
  let hl := mkVec4i 0 10 100 10 in
  let vl := mkVec4i 0 0 1 100 in
  split_lines [hl; vl] = mkSplit [0%nat] [1%nat]
  /\ in_image (fst (intersection_xy hl vl)) (snd (intersection_xy hl vl)) = true
  /\ findIntersection hl vl = mkPoint 0 10
  /\ forall cloud, board_points [hl; vl] cloud = [].
Proof.
  cbv zeta. split; [reflexivity|]. split; [vm_compute; reflexivity|].
  assert (H : findIntersection (mkVec4i 0 10 100 10) (mkVec4i 0 0 1 100) = mkPoint 0 10)
    by (vm_compute; reflexivity).
  split; [exact H|].
  intros cloud. unfold board_points, all_intersections.
  change (split_lines [mkVec4i 0 10 100 10; mkVec4i 0 0 1 100])
    with (mkSplit [0%nat] [1%nat]).
  cbn [h_indexes v_indexes fold_left nth]. unfold add_intersection.
  rewrite H. reflexivity.
Qed.

(** ** Comparisons of [float] *)

Lemma Qltb_lt (a b : Q) : Float.Qltb a b = true <-> (a < b)%Q.
Proof. unfold Float.Qltb, Qlt. apply Z.ltb_lt. Qed.

Lemma Qltb_ge (a b : Q) : Float.Qltb a b = false <-> (b <= a)%Q.
Proof. unfold Float.Qltb, Qle. apply Z.ltb_ge. Qed.

Lemma ltb_FVal (a b : float) :
  Float.ltb a b = true <-> exists p q, a = FVal p /\ b = FVal q /\ (p < q)%Q.
Proof.
  destruct a as [|p], b as [|q]; simpl; split;
    try discriminate; try (intros (p' & q' & Ha & Hb & _); discriminate).
  - intros H. exists p, q. now rewrite <- Qltb_lt.
  - intros (p' & q' & Ha & Hb & H). injection Ha as <-. injection Hb as <-.
    now apply Qltb_lt.
Qed.

Lemma leb_FVal (a b : float) :
  Float.leb a b = true <-> exists p q, a = FVal p /\ b = FVal q /\ (p <= q)%Q.
Proof.
  destruct a as [|p], b as [|q]; simpl; split;
    try discriminate; try (intros (p' & q' & Ha & Hb & _); discriminate).
  - intros H. exists p, q. now rewrite <- Qle_bool_iff.
  - intros (p' & q' & Ha & Hb & H). injection Ha as <-. injection Hb as <-.
    now apply Qle_bool_iff.
Qed.

Lemma leb_not_ltb (a b : float) : Float.leb a b = true -> Float.ltb b a = false.
Proof.
  intros H. apply leb_FVal in H. destruct H as (p & q & -> & -> & H).
  simpl. now apply Qltb_ge.
Qed.

Lemma ltb_nan_l (b : float) : Float.ltb FNaN b = false.
Proof. reflexivity. Qed.

Lemma add_nan_r (a : float) : Float.add a FNaN = FNaN.
Proof. now destruct a. Qed.

Lemma sub_nan_r (a : float) : Float.sub a FNaN = FNaN.
Proof. now destruct a. Qed.

(** ** Deduplication *)

Lemma l1_distance_invalid (tp : point) (cp : color_point) :
  valid_entry cp = false -> l1_distance tp cp = FNaN.
Proof.
  unfold valid_entry, l1_distance. destruct cp as [cx cy cz c]. simpl.
  destruct cx; [intros _; now rewrite sub_nan_r|].
  destruct cy; [intros _; now rewrite sub_nan_r, add_nan_r|].
  destruct cz; [intros _; now rewrite sub_nan_r, add_nan_r|].
  discriminate.
Qed.

Lemma include_scan_true (data : list point) (cp : color_point) :
  include_scan data cp = true <->
  Forall (fun tp => Float.ltb (l1_distance tp cp) dedup_threshold = false) data.
Proof.
  induction data as [|tp data IH]; simpl.
  - split; [constructor | reflexivity].
  - destruct (Float.ltb (l1_distance tp cp) dedup_threshold) eqn:H.
    + split; [discriminate|]. intros HF. inversion HF; subst. congruence.
    + rewrite IH. split; [now constructor | intros HF; now inversion HF].
Qed.

Lemma include_scan_false (data : list point) (cp : color_point) :
  include_scan data cp = false <->
  Exists (fun tp => Float.ltb (l1_distance tp cp) dedup_threshold = true) data.
Proof.
  induction data as [|tp data IH]; simpl.
  - split; [discriminate | intros H; inversion H].
  - destruct (Float.ltb (l1_distance tp cp) dedup_threshold) eqn:H.
    + split; [now constructor | reflexivity].
    + rewrite IH. split; [now constructor|].
      intros HE. inversion HE; subst; [congruence | assumption].
Qed.

Lemma include_scan_invalid (data : list point) (cp : color_point) :
  valid_entry cp = false -> include_scan data cp = true.
Proof.
  intros H. apply include_scan_true, Forall_forall. intros tp _.
  now rewrite l1_distance_invalid.
Qed.

(** C3, as the code has it: the entry of the cloud at a pixel that passes
    the caller's test is looked up and is not tested for validity.  An
    entry with a NaN coordinate is at a NaN distance of every retained point,
    which is not below the threshold, so it is appended: the collection then
    holds a point without a valid coordinate. *)
Theorem C3_invalid_entry_retained
  (cloud : PointCloudRGB) (data : list point) (p : Point) :
  px p > 0 -> py p > 0 ->
  valid_entry (cloud (px p) (py p)) = false ->
  lookup_and_add cloud data p = data ++ [to_point (cloud (px p) (py p))]
  /\ valid_point (to_point (cloud (px p) (py p))) = false.
Proof.
  intros Hx Hy Hv. rewrite lookup_and_add_positive by assumption.
  unfold push_unless_duplicate. rewrite include_scan_invalid by assumption.
  split; [reflexivity|]. destruct (cloud (px p) (py p)); exact Hv.
Qed.

Lemma C3_invalid_entry_retained_witness :
  lookup_and_add blind_cloud [origin] (mkPoint 100 100)
  = [origin; PointXYZ.mk FNaN FNaN FNaN].
Proof.
  exact (proj1 (C3_invalid_entry_retained blind_cloud [origin] (mkPoint 100 100)
                  eq_refl eq_refl eq_refl)).
Defined.

(** C3 as the claim words it fails: with a cloud that holds no measurement,
    the intersection of the segments [(0,100)-(600,100)] and
    [(100,0)-(101,450)], at pixel [(100,100)], gives a board point whose
    coordinates are NaN. *)
Lemma C3_invalid_board_point :
  let lines := [mkVec4i 0 100 600 100; mkVec4i 100 0 101 450] in
  findIntersection (nth 0 lines default_line) (nth 1 lines default_line)
  = mkPoint 100 100
  /\ valid_entry (blind_cloud 100 100) = false
  /\ board_points lines blind_cloud = [PointXYZ.mk FNaN FNaN FNaN]
  /\ existsb (fun q => negb (valid_point q)) (board_points lines blind_cloud) = true.
Proof. cbv zeta. repeat split; vm_compute; reflexivity. Qed.

(** ** Corner candidates *)

Lemma candidate_fold (centroid : Vector4f) (data : list point)
  (l : list nat) (c : candidates) :
  fold_left (candidate_step centroid data) l c =
  mkCandidates (a1_candidates c ++ filter (picks_a1 centroid data) l)
               (a8_candidates c ++ filter (picks_a8 centroid data) l)
               (h1_candidates c ++ filter (picks_h1 centroid data) l).
Proof.
  revert c. induction l as [|i l IH]; intros [a1 a8 h1]; simpl.
  - now rewrite !app_nil_r.
  - rewrite IH. unfold candidate_step, picks_a1, picks_a8, picks_h1.
    simpl.
    destruct (is_a1 centroid (nth i data origin));
      [|destruct (is_a8 centroid (nth i data origin));
        [|destruct (is_h1 centroid (nth i data origin))]];
      simpl; now rewrite <- ?app_assoc.
Qed.

Lemma corner_candidates_filter (centroid : Vector4f) (data : list point) :
  corner_candidates centroid data =
  mkCandidates (filter (picks_a1 centroid data) (seq 0 (length data)))
               (filter (picks_a8 centroid data) (seq 0 (length data)))
               (filter (picks_h1 centroid data) (seq 0 (length data))).
Proof. unfold corner_candidates. now rewrite candidate_fold. Qed.

Lemma within_margin_not_below (p c : float) :
  Float.leb (Float.abs (Float.sub p c)) margin = true ->
  Float.ltb p (Float.sub c margin) = false.
Proof.
  destruct p as [|p], c as [|c]; try discriminate.
  change (Qle_bool (Qabs (p - c)) (5 # 100) = true ->
          Float.Qltb p (c - (5 # 100)) = false).
  rewrite Qle_bool_iff, Qltb_ge. intros H.
  apply Qabs_Qle_condition in H. lra.
Qed.

Lemma within_margin_not_above (p c : float) :
  Float.leb (Float.abs (Float.sub p c)) margin = true ->
  Float.gtb p (Float.add c margin) = false.
Proof.
  destruct p as [|p], c as [|c]; try discriminate.
  change (Qle_bool (Qabs (p - c)) (5 # 100) = true ->
          Float.Qltb (c + (5 # 100)) p = false).
  rewrite Qle_bool_iff, Qltb_ge. intros H.
  apply Qabs_Qle_condition in H. lra.
Qed.

(** C9: whatever the centroid and the points are, no index is in two of the
    three candidate lists, and the index of a point whose [x] or whose [y]
    is within 0.05 of the centroid's is in none of them. *)
Theorem C9_candidates_disjoint (centroid : Vector4f) (data : list point) :
  let c := corner_candidates centroid data in
  (forall i, In i (a1_candidates c) -> In i (a8_candidates c) -> False)
  /\ (forall i, In i (a1_candidates c) -> In i (h1_candidates c) -> False)
  /\ (forall i, In i (a8_candidates c) -> In i (h1_candidates c) -> False)
  /\ (forall i,
        within_margin (PointXYZ.x (nth i data origin)) (c0 centroid) = true
        \/ within_margin (PointXYZ.y (nth i data origin)) (c1 centroid) = true ->
        ~ In i (a1_candidates c) /\ ~ In i (a8_candidates c)
        /\ ~ In i (h1_candidates c)).
Proof.
  cbv zeta. rewrite corner_candidates_filter.
  cbn [a1_candidates a8_candidates h1_candidates].
  split; [|split; [|split]]; intros i; rewrite ?filter_In;
    unfold picks_a1, picks_a8, picks_h1.
  - intros [_ H1] [_ H2]. rewrite H1 in H2. discriminate.
  - intros [_ H1] [_ H2]. rewrite H1 in H2. discriminate.
  - intros [_ H1] [_ H2]. apply andb_prop in H1. destruct H1 as [_ H1].
    rewrite H1, andb_false_r in H2. discriminate.
  - intros Hm. unfold within_margin in Hm.
    assert (H1 : is_a1 centroid (nth i data origin) = false).
    { unfold is_a1. destruct Hm as [Hm | Hm].
      - now rewrite (within_margin_not_below _ _ Hm).
      - rewrite (within_margin_not_above _ _ Hm). apply andb_false_r. }
    assert (H8 : is_a8 centroid (nth i data origin) = false).
    { unfold is_a8. destruct Hm as [Hm | Hm].
      - now rewrite (within_margin_not_below _ _ Hm).
      - rewrite (within_margin_not_below _ _ Hm). apply andb_false_r. }
    assert (Hh : is_h1 centroid (nth i data origin) = false).
    { unfold is_h1. destruct Hm as [Hm | Hm].
      - now rewrite (within_margin_not_above _ _ Hm).
      - rewrite (within_margin_not_above _ _ Hm). apply andb_false_r. }
    rewrite H1, H8, Hh. simpl.
    repeat split; intros [_ H]; discriminate.
Qed.

Lemma C9_candidates_disjoint_witness :
  let centroid := mkVector4f (FVal 0) (FVal 0) (FVal 0) (FVal 0) in
  let data := [PointXYZ.mk (FVal (1 # 100)) (FVal 1) (FVal 0)] in
  ~ In 0%nat (a1_candidates (corner_candidates centroid data)).
Proof.
  intros centroid data.
  refine (proj1 (proj2 (proj2 (proj2 (C9_candidates_disjoint centroid data))) 0%nat _)).
  left. reflexivity.
Defined.

(** ** The error of one point *)

Lemma fold_left_flat_map {A B C} (f : A -> B -> A) (g : C -> list B)
  (l : list C) (a : A) :
  fold_left f (flat_map g l) a = fold_left (fun a c => fold_left f (g c) a) l a.
Proof.
  revert a. induction l as [|c l IH]; intros a; simpl; [reflexivity|].
  now rewrite fold_left_app, IH.
Qed.

Lemma fold_left_map {A B C} (f : A -> B -> A) (h : C -> B) (l : list C) (a : A) :
  fold_left f (map h l) a = fold_left (fun a c => f a (h c)) l a.
Proof.
  revert a. induction l as [|c l IH]; intros a; simpl; [reflexivity|]. apply IH.
Qed.

Lemma fold_left_ext_in {A B} (f g : A -> B -> A) (l : list B) (a : A) :
  (forall a b, In b l -> f a b = g a b) -> fold_left f l a = fold_left g l a.
Proof.
  revert a. induction l as [|b l IH]; intros a H; simpl; [reflexivity|].
  rewrite H by now left. apply IH. intros a' b' Hb. apply H. now right.
Qed.

Lemma point_error_flat (pt : point) :
  point_error pt = fold_left min_step (grid_distances pt) error_cap.
Proof.
  unfold point_error, grid_distances. rewrite fold_left_flat_map.
  apply fold_left_ext_in. intros e gx _. now rewrite fold_left_map.
Qed.

Lemma grid_range_spec (g : Z) : In g grid_range <-> 1 <= g <= 7.
Proof.
  change grid_range with [1; 2; 3; 4; 5; 6; 7]. simpl. lia.
Qed.

Lemma grid_distances_in (pt : point) (d : float) :
  In d (grid_distances pt) <->
  exists gx gy, 1 <= gx <= 7 /\ 1 <= gy <= 7 /\ d = grid_distance pt gx gy.
Proof.
  unfold grid_distances. rewrite in_flat_map. split.
  - intros (gx & Hx & Hd). apply in_map_iff in Hd. destruct Hd as (gy & <- & Hy).
    exists gx, gy. now rewrite <- !grid_range_spec.
  - intros (gx & gy & Hx & Hy & ->). exists gx. rewrite grid_range_spec.
    split; [exact Hx|]. apply in_map. now apply grid_range_spec.
Qed.

Lemma grid_distance_finite (x y : Q) (z : float) (gx gy : Z) :
  grid_distance (PointXYZ.mk (FVal x) (FVal y) z) gx gy
  = FVal (planar_distance x y gx gy).
Proof. reflexivity. Qed.

(** The running minimum over a list, started at [e0]. *)
Lemma fold_min_spec (ds : list float) (e0 : Q) :
  exists m, fold_left min_step ds (FVal e0) = FVal m
            /\ (m <= e0)%Q
            /\ (forall q, In (FVal q) ds -> (m <= q)%Q)
            /\ (m = e0 \/ In (FVal m) ds).
Proof.
  revert e0. induction ds as [|d ds IH]; intros e0; simpl.
  - exists e0. split; [reflexivity|]. split; [lra|].
    split; [intros q []|now left].
  - destruct d as [|q].
    + change (min_step (FVal e0) FNaN) with (FVal e0).
      destruct (IH e0) as (m & Hm & Hle & Hall & Hin).
      exists m. split; [exact Hm|]. split; [exact Hle|]. split.
      * intros q [Hq | Hq]; [discriminate | now apply Hall].
      * destruct Hin; [now left | right; now right].
    + unfold min_step at 2. simpl Float.ltb.
      destruct (Float.Qltb q e0) eqn:Hlt.
      * apply Qltb_lt in Hlt.
        destruct (IH q) as (m & Hm & Hle & Hall & Hin).
        exists m. split; [exact Hm|]. split; [lra|]. split.
        -- intros q' [Hq | Hq]; [injection Hq as <-; lra | now apply Hall].
        -- right. destruct Hin as [-> | Hin]; [now left | now right].
      * apply Qltb_ge in Hlt.
        destruct (IH e0) as (m & Hm & Hle & Hall & Hin).
        exists m. split; [exact Hm|]. split; [exact Hle|]. split.
        -- intros q' [Hq | Hq]; [injection Hq as <-; lra | now apply Hall].
        -- destruct Hin; [now left | right; now right].
Qed.

(** ** The fit error as a sum *)

Lemma square_nonneg (a : Q) : (0 <= a * a)%Q.
Proof.
  destruct (Qlt_le_dec a 0) as [Hn | Hp].
  - setoid_replace (a * a)%Q with ((- a) * (- a))%Q by ring.
    apply Qmult_le_0_compat; lra.
  - now apply Qmult_le_0_compat.
Qed.

Lemma planar_distance_nonneg (x y : Q) (gx gy : Z) :
  (0 <= planar_distance x y gx gy)%Q.
Proof.
  unfold planar_distance.
  pose proof (square_nonneg ((5715 # 100000) * inject_Z gx - x)).
  pose proof (square_nonneg ((5715 # 100000) * inject_Z gy - y)).
  lra.
Qed.

Lemma sum_squares_zero (a b : Q) :
  (a * a + b * b == 0)%Q -> (a == 0)%Q /\ (b == 0)%Q.
Proof.
  intros H.
  pose proof (square_nonneg a). pose proof (square_nonneg b).
  assert (Ha : (a * a == 0)%Q) by lra.
  assert (Hb : (b * b == 0)%Q) by lra.
  split.
  - destruct (Qmult_integral _ _ Ha); assumption.
  - destruct (Qmult_integral _ _ Hb); assumption.
Qed.

Lemma planar_distance_zero (x y : Q) (gx gy : Z) :
  (planar_distance x y gx gy == 0)%Q <->
  (x == (5715 # 100000) * inject_Z gx)%Q /\ (y == (5715 # 100000) * inject_Z gy)%Q.
Proof.
  unfold planar_distance. split.
  - intros H. apply sum_squares_zero in H. destruct H as [Hx Hy]. split; lra.
  - intros [Hx Hy]. rewrite Hx, Hy. ring.
Qed.

Lemma grid_distance_nan (x y z : float) (gx gy : Z) :
  x = FNaN \/ y = FNaN -> grid_distance (PointXYZ.mk x y z) gx gy = FNaN.
Proof.
  unfold grid_distance. cbn [PointXYZ.x PointXYZ.y]. intros [-> | ->].
  - now rewrite sub_nan_r.
  - rewrite sub_nan_r. apply add_nan_r.
Qed.

Lemma grid_distance_value (pt : point) (gx gy : Z) (m : Q) :
  grid_distance pt gx gy = FVal m ->
  exists x y, PointXYZ.x pt = FVal x /\ PointXYZ.y pt = FVal y
              /\ m = planar_distance x y gx gy.
Proof.
  destruct pt as [[|x] [|y] z]; intros H.
  - rewrite grid_distance_nan in H by now left. discriminate.
  - rewrite grid_distance_nan in H by now left. discriminate.
  - rewrite grid_distance_nan in H by now right. discriminate.
  - rewrite grid_distance_finite in H. injection H as <-.
    exists x, y. repeat split.
Qed.

(** The error of a point is a number between 0 and the cap, and it is 0
    exactly for a point that lies over a grid intersection. *)
Lemma point_error_value (pt : point) :
  exists e, point_error pt = FVal e /\ (0 <= e <= 1000)%Q
            /\ ((e == 0)%Q <-> on_grid_xy pt).
Proof.
  destruct (fold_min_spec (grid_distances pt) 1000%Q) as (m & Hm & Hle & Hall & Hin).
  exists m. rewrite point_error_flat. split; [exact Hm|].
  assert (Hpos : (0 <= m)%Q).
  { destruct Hin as [-> | Hin]; [lra|].
    apply grid_distances_in in Hin. destruct Hin as (gx & gy & _ & _ & Hd).
    symmetry in Hd. apply grid_distance_value in Hd.
    destruct Hd as (x & y & _ & _ & ->). apply planar_distance_nonneg. }
  split; [split; assumption|]. split.
  - intros Hz. destruct Hin as [-> | Hin]; [lra|].
    apply grid_distances_in in Hin. destruct Hin as (gx & gy & Hx & Hy & Hd).
    symmetry in Hd. apply grid_distance_value in Hd.
    destruct Hd as (x & y & Hpx & Hpy & ->).
    apply planar_distance_zero in Hz. destruct Hz as [Hzx Hzy].
    exists gx, gy. rewrite Hpx, Hpy. repeat split; try lia; assumption.
  - intros (gx & gy & Hx & Hy & Hex & Hey).
    destruct pt as [[|x] [|y] z]; try contradiction.
    cbn [PointXYZ.x PointXYZ.y] in Hex, Hey.
    assert (Hd : (planar_distance x y gx gy == 0)%Q)
      by (apply planar_distance_zero; split; assumption).
    assert (Hm' : (m <= planar_distance x y gx gy)%Q).
    { apply Hall. apply grid_distances_in. exists gx, gy.
      split; [exact Hx|]. split; [exact Hy|]. now rewrite grid_distance_finite. }
    lra.
Qed.

Lemma point_error_is_value (pt : point) : point_error pt = FVal (error_value pt).
Proof.
  unfold error_value. destruct (point_error_value pt) as (e & -> & _). reflexivity.
Qed.

Lemma error_value_nonneg (pt : point) : (0 <= error_value pt)%Q.
Proof.
  unfold error_value. destruct (point_error_value pt) as (e & -> & He & _).
  simpl. lra.
Qed.

Lemma fold_add_qsum (l : list Q) (a : Q) :
  (fold_left Qplus l a == a + qsum l)%Q.
Proof.
  revert a. induction l as [|q l IH]; intros a; simpl; [ring|].
  rewrite IH. ring.
Qed.

Lemma fit_error_from (l : list point) (a : Q) :
  fold_left (fun error pt => Float.add error (point_error pt)) l (FVal a)
  = FVal (fold_left Qplus (map error_value l) a).
Proof.
  revert a. induction l as [|pt l IH]; intros a; simpl; [reflexivity|].
  rewrite point_error_is_value. apply IH.
Qed.

Lemma qsum_nonneg (l : list Q) :
  Forall (fun q => 0 <= q)%Q l -> (0 <= qsum l)%Q.
Proof. induction 1; simpl; lra. Qed.

(** ** The search *)

Lemma fit_error_value (l : list point) : fit_error l = FVal (fit_value l).
Proof. apply fit_error_from. Qed.

Lemma fit_value_nonneg (l : list point) : (0 <= fit_value l)%Q.
Proof.
  unfold fit_value. rewrite fold_add_qsum.
  assert (H : (0 <= qsum (map error_value l))%Q).
  { apply qsum_nonneg, Forall_forall. intros q Hq. apply in_map_iff in Hq.
    destruct Hq as (pt & <- & _). apply error_value_nonneg. }
  lra.
Qed.

Lemma evaluate_proper `{PCL} (data : list point) (i j k : nat) :
  proper_error (evaluate data i j k).
Proof.
  unfold evaluate, proper_error. cbn [fst].
  eexists. split; [apply fit_error_value | apply fit_value_nonneg].
Qed.

Lemma results_proper `{PCL} (data : list point) (c : candidates) :
  Forall proper_error (results data c).
Proof.
  unfold results. apply Forall_forall. intros r Hr. apply in_map_iff in Hr.
  destruct Hr as ([[i j] k] & <- & _). apply evaluate_proper.
Qed.

Lemma search_from_results `{PCL} (data : list point) (c : candidates)
  (st : search_state) :
  search_from data c st = fold_left update (results data c) st.
Proof.
  unfold search_from, results, triples.
  rewrite fold_left_map, fold_left_flat_map.
  apply fold_left_ext_in. intros st1 i _.
  rewrite fold_left_flat_map.
  apply fold_left_ext_in. intros st2 j _.
  now rewrite fold_left_map.
Qed.

Lemma triples_in (c : candidates) (i j k : nat) :
  In (i, j, k) (triples c) <->
  In i (a1_candidates c) /\ In j (a8_candidates c) /\ In k (h1_candidates c).
Proof.
  unfold triples. rewrite in_flat_map. split.
  - intros (i' & Hi & H). apply in_flat_map in H. destruct H as (j' & Hj & H).
    apply in_map_iff in H. destruct H as (k' & Hk & Hk'). injection Hk as -> -> ->.
    auto.
  - intros (Hi & Hj & Hk). exists i. split; [exact Hi|].
    apply in_flat_map. exists j. split; [exact Hj|]. now apply in_map.
Qed.

Lemma triples_nil (c : candidates) :
  a1_candidates c = [] \/ a8_candidates c = [] \/ h1_candidates c = [] ->
  triples c = [].
Proof.
  intros H. destruct (triples c) as [|[[i j] k] l] eqn:Ht; [reflexivity|].
  assert (Hin : In (i, j, k) (triples c)) by (rewrite Ht; now left).
  apply triples_in in Hin. destruct Hin as (Hi & Hj & Hk).
  destruct H as [H | [H | H]]; rewrite H in *; contradiction.
Qed.


Lemma nth_error_snoc {A} (pre : list A) (r r' : A) (m : nat) :
  nth_error (pre ++ [r]) m = Some r' ->
  ((m < length pre)%nat /\ nth_error pre m = Some r')
  \/ (m = length pre /\ r' = r).
Proof.
  intros H. destruct (Nat.lt_ge_cases m (length pre)) as [Hlt | Hge].
  - left. split; [exact Hlt|]. now rewrite nth_error_app1 in H.
  - right. rewrite nth_error_app2 in H by exact Hge.
    destruct (m - length pre)%nat as [|d] eqn:Hd; simpl in H.
    + injection H as <-. split; [lia | reflexivity].
    + destruct d; discriminate.
Qed.

Lemma update_first `{PCL} (r : float * Matrix4f) :
  update initial_state r = mkState (fst r) (Assigned (snd r)).
Proof. reflexivity. Qed.

Lemma update_holds_best `{PCL} (pre : list (float * Matrix4f))
  (st : search_state) (r : float * Matrix4f) :
  Forall proper_error pre -> proper_error r ->
  holds_best pre st -> holds_best (pre ++ [r]) (update st r).
Proof.
  intros Hpre (q & Hq & Hq0) Hst. destruct pre as [|p pre'].
  - simpl in Hst. subst st. rewrite update_first. simpl.
    exists 0%nat, r. split; [|reflexivity]. split; [reflexivity|]. split.
    + intros [|[|m]] r' Hm; simpl in Hm; try discriminate.
      injection Hm as <-. rewrite Hq. simpl. apply Qle_bool_iff. lra.
    + intros m r' Hm. lia.
  - set (pre := p :: pre') in *.
    change (exists n r0, first_minimum (pre ++ [r]) n r0
                         /\ update st r = mkState (fst r0) (Assigned (snd r0))).
    destruct Hst as (n & r0 & (Hn & Hle & Hlt) & ->).
    assert (Hr0 : proper_error r0).
    { apply nth_error_In in Hn. rewrite Forall_forall in Hpre. now apply Hpre. }
    destruct Hr0 as (b & Hb & Hb0).
    assert (Hlen : (n < length pre)%nat) by (apply nth_error_Some; congruence).
    unfold update. cbn [best_score]. rewrite Hb, Hq.
    assert (Hneg : Float.ltb (FVal b) (FVal 0%Q) = false)
      by (simpl; now apply Qltb_ge).
    rewrite Hneg. cbn [orb].
    destruct (Float.ltb (FVal q) (FVal b)) eqn:Hcmp.
    + simpl in Hcmp. apply Qltb_lt in Hcmp.
      exists (length pre), r. split; [|now rewrite Hq]. split; [|split].
      * rewrite nth_error_app2, Nat.sub_diag by lia. reflexivity.
      * intros m r' Hm. rewrite Hq.
        apply nth_error_snoc in Hm. destruct Hm as [[_ Hm] | [_ ->]].
        -- specialize (Hle m r' Hm). rewrite Hb in Hle.
           apply leb_FVal in Hle. destruct Hle as (b' & q' & Hb' & -> & Hle).
           injection Hb' as <-. simpl. apply Qle_bool_iff. lra.
        -- rewrite Hq. simpl. apply Qle_bool_iff. lra.
      * intros m r' Hm1 Hm. rewrite Hq.
        apply nth_error_snoc in Hm. destruct Hm as [[_ Hm] | [-> _]]; [|lia].
        specialize (Hle m r' Hm). rewrite Hb in Hle.
        apply leb_FVal in Hle. destruct Hle as (b' & q' & Hb' & -> & Hle).
        injection Hb' as <-. simpl. apply Qltb_lt. lra.
    + simpl in Hcmp. apply Qltb_ge in Hcmp.
      exists n, r0. split; [|now rewrite Hb]. split; [|split].
      * now rewrite nth_error_app1.
      * intros m r' Hm.
        apply nth_error_snoc in Hm. destruct Hm as [[_ Hm] | [_ ->]].
        -- now apply (Hle m).
        -- rewrite Hb, Hq. simpl. now apply Qle_bool_iff.
      * intros m r' Hm1 Hm.
        apply nth_error_snoc in Hm. destruct Hm as [[_ Hm] | [-> _]]; [|lia].
        now apply (Hlt m).
Qed.

Lemma fold_update_holds_best `{PCL} (rs pre : list (float * Matrix4f))
  (st : search_state) :
  Forall proper_error pre -> Forall proper_error rs ->
  holds_best pre st -> holds_best (pre ++ rs) (fold_left update rs st).
Proof.
  revert pre st. induction rs as [|r rs IH]; intros pre st Hpre Hrs Hst.
  - now rewrite app_nil_r.
  - inversion Hrs as [|? ? Hr Hrs']; subst. simpl.
    replace (pre ++ r :: rs) with ((pre ++ [r]) ++ rs)
      by (now rewrite <- app_assoc).
    apply IH.
    + apply Forall_app. split; [exact Hpre | now constructor].
    + exact Hrs'.
    + now apply update_holds_best.
Qed.



(** ** A search without triples *)

Lemma search_without_triples `{PCL} (data : list point) (c : candidates) :
  a1_candidates c = [] \/ a8_candidates c = [] \/ h1_candidates c = [] ->
  search data c = initial_state.
Proof.
  intros Hc. unfold search. rewrite search_from_results. unfold results.
  now rewrite (triples_nil c Hc).
Qed.

(** C1, against the code: when one of the three candidate lists is empty the
    loops run over no triple, [best_score] keeps its initial [-1] and
    [best_transform] is never assigned, and the callback sends a transform
    all the same: the inverse of the uninitialized matrix. *)
Theorem C1_pose_from_uninitialized `{PCL} (lines : list Vec4i) (cloud : PointCloudRGB) :
  let c := callback_candidates lines cloud in
  a1_candidates c = [] \/ a8_candidates c = [] \/ h1_candidates c = [] ->
  callback_search lines cloud = mkState (FVal (-1)%Q) Uninitialized
  /\ cameraCallback lines cloud = [SendTransform Uninitialized].
Proof.
  intros c Hc.
  assert (Hs : callback_search lines cloud = initial_state)
    by (unfold callback_search; now apply search_without_triples).
  split; [exact Hs|]. unfold cameraCallback. now rewrite Hs.
Qed.

(** No line detected in the image, and the same blind cloud as above. *)
Lemma C1_pose_from_uninitialized_witness :
  @cameraCallback Translation.pcl [] blind_cloud = [SendTransform Uninitialized].
Proof.
  refine (proj2 (@C1_pose_from_uninitialized Translation.pcl [] blind_cloud _)).
  left. reflexivity.
Defined.

(** * Further properties *)

(** ** Doubles have 53-bit mantissas *)

(** [SpecFloat] computes with Corelib's integer operations; [lia] knows the
    Standard Library's names for them. *)
Ltac std_Z :=
  change IntDef.Z.max with Z.max in *;
  change IntDef.Z.min with Z.min in *;
  change IntDef.Z.sub with Z.sub in *;
  change IntDef.Z.add with Z.add in *;
  change IntDef.Z.opp with Z.opp in *;
  change IntDef.Z.mul with Z.mul in *.

Lemma shr_1_digits (mrs : shr_record) :
  0 <= shr_m mrs ->
  0 <= shr_m (shr_1 mrs)
  /\ Zdigits2 (shr_m (shr_1 mrs)) = Z.max 0 (Zdigits2 (shr_m mrs) - 1).
Proof.
  destruct mrs as [m r s]. simpl. intros Hm.
  destruct m as [|[p|p|]|p]; cbn [shr_1 shr_m orb Zdigits2 digits2_pos];
    rewrite ?Pos2Z.inj_succ; lia.
Qed.

Lemma iter_shr_1_digits (p : positive) (mrs : shr_record) :
  0 <= shr_m mrs ->
  0 <= shr_m (iter_pos shr_1 p mrs)
  /\ Zdigits2 (shr_m (iter_pos shr_1 p mrs))
     = Z.max 0 (Zdigits2 (shr_m mrs) - Zpos p).
Proof.
  revert mrs. induction p as [p IH|p IH|]; intros mrs Hm; simpl.
  - destruct (shr_1_digits mrs Hm) as [H1 D1].
    destruct (IH _ H1) as [H2 D2]. destruct (IH _ H2) as [H3 D3].
    split; [exact H3|]. rewrite D3, D2, D1. lia.
  - destruct (IH _ Hm) as [H2 D2]. destruct (IH _ H2) as [H3 D3].
    split; [exact H3|]. rewrite D3, D2. lia.
  - apply shr_1_digits, Hm.
Qed.

Lemma shr_1_nonpos (mrs : shr_record) :
  shr_m mrs <= 0 -> shr_m (shr_1 mrs) <= 0.
Proof.
  destruct mrs as [m r s]. simpl. intros Hm.
  destruct m as [|p|[p|p|]]; simpl; lia.
Qed.

Lemma iter_shr_1_nonpos (p : positive) (mrs : shr_record) :
  shr_m mrs <= 0 -> shr_m (iter_pos shr_1 p mrs) <= 0.
Proof.
  revert mrs. induction p as [p IH|p IH|]; intros mrs Hm; simpl.
  - now apply IH, IH, shr_1_nonpos.
  - now apply IH, IH.
  - now apply shr_1_nonpos.
Qed.

(** The second shift of the rounding leaves at most 53 bits. *)
Lemma shr_fexp_exact_digits (m e : Z) :
  0 <= m ->
  Zdigits2 (shr_m (fst (shr_fexp Double.prec Double.emax m e loc_Exact)))
  <= Double.prec.
Proof.
  intros Hm. unfold shr_fexp, shr, shr_record_of_loc.
  assert (Hn : Zdigits2 m - Double.prec
               <= fexp Double.prec Double.emax (Zdigits2 m + e) - e)
    by (unfold fexp; std_Z; lia).
  destruct (fexp Double.prec Double.emax (Zdigits2 m + e) - e) as [|p|p];
    cbn [fst shr_m].
  - unfold Double.prec in *. lia.
  - destruct (iter_shr_1_digits p (Build_shr_record m false false) Hm) as [_ D].
    rewrite D. cbn [shr_m]. unfold Double.prec in *. lia.
  - unfold Double.prec in *. lia.
Qed.

Lemma shr_fexp_exact_nonpos (m e : Z) :
  m <= 0 ->
  shr_m (fst (shr_fexp Double.prec Double.emax m e loc_Exact)) <= 0.
Proof.
  intros Hm. unfold shr_fexp, shr, shr_record_of_loc.
  destruct (fexp Double.prec Double.emax (Zdigits2 m + e) - e) as [|p|p];
    cbn [fst shr_m]; try exact Hm.
  now apply iter_shr_1_nonpos.
Qed.

Lemma round_aux_fits (sx : bool) (mx ex : Z) (lx : location) :
  mantissa_fits (binary_round_aux Double.prec Double.emax sx mx ex lx).
Proof.
  unfold binary_round_aux.
  destruct (shr_fexp Double.prec Double.emax mx ex lx) as [mrs' e'].
  set (m1 := round_nearest_even (shr_m mrs') (loc_of_shr_record mrs')).
  destruct (shr_fexp Double.prec Double.emax m1 e' loc_Exact)
    as [mrs'' e''] eqn:H2.
  destruct (shr_m mrs'') as [|m|m] eqn:Hm; [exact I| |exact I].
  match goal with |- context [if ?c then _ else _] => destruct c end;
    [|exact I].
  unfold mantissa_fits. change (Z.pos (digits2_pos m)) with (Zdigits2 (Z.pos m)).
  destruct (Z.le_gt_cases 0 m1) as [Hpos | Hneg].
  - pose proof (shr_fexp_exact_digits m1 e' Hpos) as HD.
    rewrite H2 in HD. cbn [fst] in HD. rewrite Hm in HD. exact HD.
  - exfalso. assert (Hle : m1 <= 0) by lia.
    pose proof (shr_fexp_exact_nonpos m1 e' Hle) as HD.
    rewrite H2 in HD. cbn [fst] in HD. rewrite Hm in HD. lia.
Qed.

Lemma normalize_fits (m e : Z) (s : bool) :
  mantissa_fits (binary_normalize Double.prec Double.emax m e s).
Proof.
  unfold binary_normalize, binary_round.
  destruct m as [|p|p]; [exact I| |].
  - destruct (shl_align p e _) as [mz ez]. apply round_aux_fits.
  - destruct (shl_align p e _) as [mz ez]. apply round_aux_fits.
Qed.

Lemma of_int_fits (z : Z) : mantissa_fits (Double.of_int z).
Proof. apply normalize_fits. Qed.

Lemma div_fits (x y : Double.double) : mantissa_fits (Double.div x y).
Proof.
  unfold Double.div, SFdiv.
  destruct x as [sx|sx| |sx mx ex], y as [sy|sy| |sy my ey]; try exact I.
  destruct (SFdiv_core_binary _ _ _ _ _ _) as [[mz ez] lz]. apply round_aux_fits.
Qed.

Lemma mul_fits (x y : Double.double) : mantissa_fits (Double.mul x y).
Proof.
  unfold Double.mul, SFmul.
  destruct x as [sx|sx| |sx mx ex], y as [sy|sy| |sy my ey]; try exact I.
  apply round_aux_fits.
Qed.

Lemma add_fits (x y : Double.double) :
  mantissa_fits x -> mantissa_fits y -> mantissa_fits (Double.add x y).
Proof.
  unfold Double.add, SFadd. intros Hx Hy.
  destruct x as [sx|sx| |sx mx ex], y as [sy|sy| |sy my ey];
    try exact I; try exact Hx; try exact Hy.
  - destruct sx, sy; exact I.
  - destruct sx, sy; exact I.
  - apply normalize_fits.
Qed.

Lemma sub_fits (x y : Double.double) :
  mantissa_fits x -> mantissa_fits y -> mantissa_fits (Double.sub x y).
Proof.
  unfold Double.sub, SFsub. intros Hx Hy.
  destruct x as [sx|sx| |sx mx ex], y as [sy|sy| |sy my ey];
    try exact I; try exact Hx; try exact Hy.
  - destruct sx, sy; exact I.
  - destruct sx, sy; exact I.
  - apply normalize_fits.
Qed.

Lemma intersection_xy_fits (a b : Vec4i) :
  mantissa_fits (fst (intersection_xy a b))
  /\ mantissa_fits (snd (intersection_xy a b)).
Proof.
  unfold intersection_xy. cbv zeta. cbn [fst snd]. split.
  - apply div_fits.
  - apply add_fits; [apply mul_fits|].
    unfold intercept. apply sub_fits; [apply of_int_fits | apply mul_fits].
Qed.

Lemma digits2_size (p : positive) : digits2_pos p = Pos.size p.
Proof. induction p; simpl; congruence. Qed.

Lemma mantissa_below (m : positive) :
  Zpos (digits2_pos m) <= Double.prec -> Zpos m < 2 ^ 53.
Proof.
  rewrite digits2_size. unfold Double.prec. intros H.
  pose proof (Pos.size_gt m) as Hs.
  apply Pos2Z.pos_lt_pos in Hs. rewrite Pos2Z.inj_pow in Hs.
  eapply Z.lt_le_trans; [exact Hs|].
  apply Z.pow_le_mono_r; lia.
Qed.

(** ** The pixel returned by [findIntersection] *)

(** [(int)x] for a double [x] with [0 <= x] and [x < n], where [n] is the
    double of mantissa [mk] and exponent [ek]. *)
Lemma to_int_range (x : Double.double) (n : Z) (mk : positive) (ek : Z) :
  mantissa_fits x ->
  Double.leb dzero x = true ->
  Double.ltb x (S754_finite false mk ek) = true ->
  - 52 <= ek < 0 -> Zpos mk = n * 2 ^ (- ek) -> 2 ^ (52 + ek) <= n ->
  n <= 2 ^ 31 ->
  0 <= Double.to_int x < n.
Proof.
  intros Hfit Hle Hlt Hek Hmk Hlow Hhigh.
  assert (Hn : 0 < n).
  { eapply Z.lt_le_trans; [|exact Hlow]. apply Z.pow_pos_nonneg; lia. }
  destruct x as [s|s| |s m e].
  - simpl. lia.
  - destruct s; discriminate.
  - discriminate.
  - destruct s; [discriminate|].
    simpl in Hfit. apply mantissa_below in Hfit.
    assert (Ht : 0 <= Z.shiftl (Zpos m) e < n).
    { unfold Double.ltb, SFltb, SFcompare in Hlt.
      change IntDef.Z.compare with Z.compare in Hlt.
      destruct (Z.compare_spec e ek) as [He | He | He]; try discriminate.
      - subst e. rewrite Z.shiftl_div_pow2 by lia.
        assert (Hm : (m < mk)%positive).
        { destruct (Pos.compare_cont Eq m mk) eqn:Hc; try discriminate.
          exact Hc. }
        apply Pos2Z.pos_lt_pos in Hm. rewrite Hmk in Hm.
        assert (Hp : 0 < 2 ^ (- ek)) by (apply Z.pow_pos_nonneg; lia).
        split; [apply Z.div_pos; lia|].
        apply Z.div_lt_upper_bound; lia.
      - rewrite Z.shiftl_div_pow2 by lia.
        assert (Hp : 0 < 2 ^ (- e)) by (apply Z.pow_pos_nonneg; lia).
        split; [apply Z.div_pos; lia|].
        apply Z.div_lt_upper_bound; [exact Hp|].
        destruct (Z.le_gt_cases (- 52) e) as [Hbig | Hsmall].
        + assert (H1 : 2 ^ 53 = 2 ^ (- e) * 2 ^ (53 + e))
            by (rewrite <- Z.pow_add_r by lia; f_equal; lia).
          assert (H2 : 2 ^ (53 + e) <= 2 ^ (52 + ek))
            by (apply Z.pow_le_mono_r; lia).
          nia.
        + assert (H1 : 2 ^ 53 <= 2 ^ (- e)) by (apply Z.pow_le_mono_r; lia).
          nia. }
    unfold Double.to_int. cbv zeta. cbn [cond_Zopp].
    assert (Hr : (Int.min_signed <=? Z.shiftl (Zpos m) e)
                 && (Z.shiftl (Zpos m) e <? Int.half_modulus) = true).
    { apply andb_true_intro. split.
      - apply Z.leb_le. unfold Int.min_signed, Int.half_modulus. lia.
      - apply Z.ltb_lt. unfold Int.half_modulus. lia. }
    rewrite Hr. exact Ht.
Qed.

Lemma in_image_pixel (x y : Double.double) :
  mantissa_fits x -> mantissa_fits y -> in_image x y = true ->
  0 <= Double.to_int x < 640 /\ 0 <= Double.to_int y < 480.
Proof.
  intros Hx Hy H. unfold in_image in H.
  apply andb_prop in H. destruct H as [H Hy2].
  apply andb_prop in H. destruct H as [H Hy1].
  apply andb_prop in H. destruct H as [Hx1 Hx2].
  split.
  - apply (to_int_range x 640 5629499534213120 (-43)); try assumption;
      try reflexivity; try lia.
  - apply (to_int_range y 480 8444249301319680 (-44)); try assumption;
      try reflexivity; try lia.
Qed.

(** The point that passes the caller's test is a pixel of the image. *)
Lemma accepted_pixel (hl vl : Vec4i) :
  px (findIntersection hl vl) > 0 -> py (findIntersection hl vl) > 0 ->
  looked_up (px (findIntersection hl vl)) (py (findIntersection hl vl)).
Proof.
  rewrite findIntersection_xy.
  destruct (intersection_xy_fits hl vl) as [Hx Hy].
  destruct (intersection_xy hl vl) as [x y]. cbn [fst snd] in Hx, Hy.
  destruct (in_image x y) eqn:Hin; cbn [px py invalid]; [|lia].
  destruct (in_image_pixel x y Hx Hy Hin) as [Hpx Hpy].
  unfold looked_up. lia.
Qed.

(** X1: [findIntersection] returns the sentinel [(-1,-1)] or a pixel of the
    640 x 480 image: no other point comes out of it, whatever the two
    segments are. *)
Theorem X1_intersection_in_image (a b : Vec4i) :
  findIntersection a b = invalid
  \/ (0 <= px (findIntersection a b) < 640
      /\ 0 <= py (findIntersection a b) < 480).
Proof.
  rewrite findIntersection_xy.
  destruct (intersection_xy_fits a b) as [Hx Hy].
  destruct (intersection_xy a b) as [x y]. cbn [fst snd] in Hx, Hy.
  destruct (in_image x y) eqn:Hin; [right | now left].
  cbn [px py]. now apply in_image_pixel.
Qed.

(** ** The board points, loop by loop *)

Lemma fold_left_invariant {A B} (P : A -> Prop) (f : A -> B -> A)
  (l : list B) (a : A) :
  P a -> (forall a b, In b l -> P a -> P (f a b)) -> P (fold_left f l a).
Proof.
  revert a. induction l as [|b l IH]; intros a Ha Hf; simpl; [exact Ha|].
  apply IH.
  - apply Hf; [now left | exact Ha].
  - intros a' b' Hb. apply Hf. now right.
Qed.

(** What holds of the empty cloud and is kept by the body of the inner loop
    holds of [data] after the two loops. *)
Lemma all_intersections_invariant (P : list point -> Prop)
  (cloud : PointCloudRGB) (lines : list Vec4i) (s : line_split) :
  P [] ->
  (forall data hl vl, P data -> P (add_intersection cloud hl data vl)) ->
  P (all_intersections cloud lines s).
Proof.
  intros H0 Hstep. unfold all_intersections.
  apply fold_left_invariant; [exact H0|].
  intros data i _ Hd. apply fold_left_invariant; [exact Hd|].
  intros data' j _ Hd'. now apply Hstep.
Qed.

(** The body of the inner loop leaves [data] alone, or offers it the entry
    of the cloud at a pixel inside the image. *)
Lemma add_intersection_cases (cloud : PointCloudRGB) (hl vl : Vec4i)
  (data : list point) :
  add_intersection cloud hl data vl = data
  \/ exists x y, looked_up x y
                 /\ add_intersection cloud hl data vl
                    = push_unless_duplicate data (cloud x y).
Proof.
  unfold add_intersection, lookup_and_add.
  pose proof (accepted_pixel hl vl) as Hin.
  destruct (px (findIntersection hl vl) >? 0) eqn:Hx0; [|now left].
  destruct (py (findIntersection hl vl) >? 0) eqn:Hy0; [|now left].
  apply Z.gtb_gt in Hx0, Hy0. right.
  exists (px (findIntersection hl vl)), (py (findIntersection hl vl)).
  split; [now apply Hin | reflexivity].
Qed.

Lemma push_cases (data : list point) (cp : color_point) :
  (push_unless_duplicate data cp = data)
  \/ (push_unless_duplicate data cp = data ++ [to_point cp]
      /\ Forall (fun tp => Float.ltb (l1_distance tp cp) dedup_threshold = false)
                data).
Proof.
  unfold push_unless_duplicate. destruct (include_scan data cp) eqn:H.
  - right. split; [reflexivity|]. now apply include_scan_true.
  - now left.
Qed.

(** X2: the callback reads the cloud at pixels with [1 <= x <= 639] and
    [1 <= y <= 479] only: two clouds that agree there give the same board
    points.  The index [cloud(p.x,p.y)] is thus always inside a 640 x 480
    organized cloud. *)
Theorem X2_cloud_read_inside_image (cloud cloud' : PointCloudRGB)
  (lines : list Vec4i) :
  (forall x y, looked_up x y -> cloud x y = cloud' x y) ->
  board_points lines cloud = board_points lines cloud'.
Proof.
  intros Hagree. unfold board_points, all_intersections.
  apply fold_left_ext_in. intros data i _.
  apply fold_left_ext_in. intros data' j _.
  unfold add_intersection, lookup_and_add.
  pose proof (accepted_pixel (nth i lines default_line) (nth j lines default_line))
    as Hin.
  destruct (findIntersection (nth i lines default_line) (nth j lines default_line))
    as [x y]. cbn [px py] in *.
  destruct (x >? 0) eqn:Hx0; [|reflexivity].
  destruct (y >? 0) eqn:Hy0; [|reflexivity].
  apply Z.gtb_gt in Hx0, Hy0. cbn [andb].
  now rewrite (Hagree x y (Hin Hx0 Hy0)).
Qed.

Lemma X2_cloud_read_inside_image_witness :
  board_points crossing_lines blind_cloud = board_points crossing_lines framed_cloud.
Proof.
  apply (X2_cloud_read_inside_image blind_cloud framed_cloud crossing_lines).
  intros x y [[Hx1 Hx2] [Hy1 Hy2]]. unfold framed_cloud.
  apply Z.leb_le in Hx1, Hx2, Hy1, Hy2.
  rewrite Hx1, Hx2, Hy1, Hy2. reflexivity.
Defined.

Lemma ForallOrdPairs_snoc {A} (R : A -> A -> Prop) (l : list A) (x : A) :
  ForallOrdPairs R l -> Forall (fun a => R a x) l -> ForallOrdPairs R (l ++ [x]).
Proof.
  induction 1 as [|a l Ha Hl IH]; intros Hx; simpl.
  - constructor; constructor.
  - inversion Hx as [|? ? Hax Hlx]; subst. constructor.
    + apply Forall_app. split; [exact Ha | now constructor].
    + now apply IH.
Qed.

(** At most one point per pair of the inner loop. *)
Lemma inner_loop_length (cloud : PointCloudRGB) (lines : list Vec4i)
  (hl : Vec4i) (js : list nat) (data : list point) :
  (length (fold_left
             (fun d j => add_intersection cloud hl d (nth j lines default_line))
             js data)
   <= length data + length js)%nat.
Proof.
  revert data. induction js as [|j js IH]; intros data; simpl; [lia|].
  etransitivity; [apply IH|].
  destruct (add_intersection_cases cloud hl (nth j lines default_line) data)
    as [-> | (x & y & _ & ->)]; [lia|].
  destruct (push_cases data (cloud x y)) as [-> | [-> _]]; [lia|].
  rewrite length_app. simpl. lia.
Qed.

(** X4: every board point is the entry of the cloud at some pixel with
    [1 <= x <= 639] and [1 <= y <= 479], and there are at most as many board
    points as pairs of a horizontal and a vertical line. *)
Theorem X4_board_points_from_cloud (lines : list Vec4i) (cloud : PointCloudRGB) :
  Forall (fun p => exists x y, looked_up x y /\ p = to_point (cloud x y))
         (board_points lines cloud)
  /\ (length (board_points lines cloud)
      <= length (h_indexes (split_lines lines))
         * length (v_indexes (split_lines lines)))%nat.
Proof.
  split.
  - unfold board_points. apply all_intersections_invariant; [constructor|].
    intros data hl vl Hd.
    destruct (add_intersection_cases cloud hl vl data) as [-> | (x & y & Hl & ->)];
      [exact Hd|].
    destruct (push_cases data (cloud x y)) as [-> | [-> _]]; [exact Hd|].
    apply Forall_app. split; [exact Hd|]. constructor; [|constructor].
    now exists x, y.
  - unfold board_points, all_intersections.
    set (s := split_lines lines).
    assert (Houter : forall is_ data,
               (length
                  (fold_left
                     (fun d i =>
                        fold_left
                          (fun d j =>
                             add_intersection cloud (nth i lines default_line) d
                                              (nth j lines default_line))
                          (v_indexes s) d)
                     is_ data)
                <= length data + length is_ * length (v_indexes s))%nat).
    { induction is_ as [|i is_ IH]; intros data; simpl; [lia|].
      etransitivity; [apply IH|].
      pose proof (inner_loop_length cloud lines (nth i lines default_line)
                    (v_indexes s) data). lia. }
    specialize (Houter (h_indexes s) []). simpl in Houter. exact Houter.
Qed.

(** X5: when no line is horizontal, or when every vertical line is upright
    to the pixel ([x1 = x2]), the callback gets no board point at all. *)
Theorem X5_upright_lines_give_nothing (lines : list Vec4i) (cloud : PointCloudRGB) :
  h_indexes (split_lines lines) = []
  \/ (forall j, In j (v_indexes (split_lines lines)) ->
                line_dx (nth j lines default_line) = 0) ->
  board_points lines cloud = [].
Proof.
  intros H. unfold board_points, all_intersections.
  destruct H as [-> | Hv]; [reflexivity|].
  apply fold_left_invariant; [reflexivity|].
  intros data i _ ->. apply fold_left_invariant; [reflexivity|].
  intros data' j Hj ->. unfold add_intersection.
  rewrite vertical_second_invalid by now apply Hv. reflexivity.
Qed.

Lemma X5_upright_lines_give_nothing_witness :
  v_indexes (split_lines upright_lines) = [1%nat]
  /\ board_points upright_lines (fun _ _ => as_entry origin) = [].
Proof.
  split; [reflexivity|].
  apply (X5_upright_lines_give_nothing upright_lines). right.
  intros j [<- | []]. reflexivity.
Defined.

(** ** Lines and their index lists *)

(** X6: for coordinates that do not overflow, a segment classified
    horizontal has [x1 <> x2]: the divisor of its slope in
    [findIntersection] is not zero. *)
Theorem X6_horizontal_has_extent (l : Vec4i) :
  small_coordinates l -> is_horizontal l = true ->
  v2 l <> v0 l /\ line_dx l <> 0.
Proof.
  intros Hs Hh. destruct (extents_exact l Hs) as [Hx Hy].
  unfold is_horizontal in Hh. apply Z.gtb_gt in Hh. rewrite Hx, Hy in Hh.
  assert (Hne : v2 l <> v0 l) by lia.
  split; [exact Hne|].
  unfold line_dx, Int.sub. rewrite wrap_in_range.
  - lia.
  - unfold small_coordinates in Hs. unfold Int.in_range, Int.half_modulus. lia.
Qed.

Lemma X6_horizontal_has_extent_witness :
  line_dx (mkVec4i 0 100 600 100) <> 0.
Proof.
  refine (proj2 (X6_horizontal_has_extent (mkVec4i 0 100 600 100) _ _)).
  - unfold small_coordinates. simpl. lia.
  - reflexivity.
Defined.

Lemma StronglySorted_seq (a n : nat) : StronglySorted lt (seq a n).
Proof.
  revert a. induction n as [|n IH]; intros a; simpl; constructor.
  - apply IH.
  - apply Forall_forall. intros b Hb. apply in_seq in Hb. lia.
Qed.

Lemma StronglySorted_filter {A} (R : A -> A -> Prop) (p : A -> bool) (l : list A) :
  StronglySorted R l -> StronglySorted R (filter p l).
Proof.
  induction 1 as [|a l Hl IH Ha]; simpl; [constructor|].
  destruct (p a); [|exact IH]. constructor; [exact IH|].
  apply Forall_forall. intros b Hb. apply filter_In in Hb.
  rewrite Forall_forall in Ha. now apply Ha.
Qed.

(** X7: [h_indexes] and [v_indexes] are strictly increasing, so the lines of
    each group are visited in the order of detection, and the two lists
    together have as many entries as there are lines. *)
Theorem X7_index_lists_increasing (lines : list Vec4i) :
  StronglySorted lt (h_indexes (split_lines lines))
  /\ StronglySorted lt (v_indexes (split_lines lines))
  /\ (length (h_indexes (split_lines lines))
      + length (v_indexes (split_lines lines))
      = length lines)%nat.
Proof.
  rewrite split_lines_filter. cbn [h_indexes v_indexes].
  split; [apply StronglySorted_filter, StronglySorted_seq|].
  split; [apply StronglySorted_filter, StronglySorted_seq|].
  rewrite <- length_app.
  rewrite (Permutation_length (filter_partition_perm _ _)). apply length_seq.
Qed.

(** ** The three tests of the candidate selector *)

Lemma a1_excludes_a8 (c : Vector4f) (p : point) :
  is_a1 c p = true -> is_a8 c p = false.
Proof.
  unfold is_a1, is_a8, Float.gtb. intros H. apply andb_prop in H.
  destruct H as [_ Hy]. apply andb_false_iff. right.
  apply ltb_FVal in Hy. destruct Hy as (u & v & Hu & Hv & Huv).
  destruct (Float.ltb (PointXYZ.y p) (Float.sub (c1 c) margin)) eqn:H;
    [|reflexivity].
  apply ltb_FVal in H. destruct H as (v' & w & Hv' & Hw & Hvw).
  rewrite Hv in Hv'. injection Hv' as <-.
  destruct (c1 c) as [|q]; [discriminate|].
  unfold margin in *. cbn in Hu, Hw. injection Hu as <-. injection Hw as <-. lra.
Qed.

Lemma a1_excludes_h1 (c : Vector4f) (p : point) :
  is_a1 c p = true -> is_h1 c p = false.
Proof.
  unfold is_a1, is_h1, Float.gtb. intros H. apply andb_prop in H.
  destruct H as [Hx _]. apply andb_false_iff. left.
  apply ltb_FVal in Hx. destruct Hx as (u & v & Hu & Hv & Huv).
  destruct (Float.ltb (Float.add (c0 c) margin) (PointXYZ.x p)) eqn:H;
    [|reflexivity].
  apply ltb_FVal in H. destruct H as (w & u' & Hw & Hu' & Hwu).
  rewrite Hu in Hu'. injection Hu' as <-.
  destruct (c0 c) as [|q]; [discriminate|].
  unfold margin in *. cbn in Hv, Hw. injection Hv as <-. injection Hw as <-. lra.
Qed.

Lemma a8_excludes_h1 (c : Vector4f) (p : point) :
  is_a8 c p = true -> is_h1 c p = false.
Proof.
  unfold is_a8, is_h1, Float.gtb. intros H. apply andb_prop in H.
  destruct H as [Hx _]. apply andb_false_iff. left.
  apply ltb_FVal in Hx. destruct Hx as (u & v & Hu & Hv & Huv).
  destruct (Float.ltb (Float.add (c0 c) margin) (PointXYZ.x p)) eqn:H;
    [|reflexivity].
  apply ltb_FVal in H. destruct H as (w & u' & Hw & Hu' & Hwu).
  rewrite Hu in Hu'. injection Hu' as <-.
  destruct (c0 c) as [|q]; [discriminate|].
  unfold margin in *. cbn in Hv, Hw. injection Hv as <-. injection Hw as <-. lra.
Qed.

Lemma in_a1_candidates (centroid : Vector4f) (data : list point) (i : nat) :
  In i (a1_candidates (corner_candidates centroid data)) <->
  (i < length data)%nat /\ is_a1 centroid (nth i data origin) = true.
Proof.
  rewrite corner_candidates_filter. cbn [a1_candidates].
  rewrite filter_In, in_seq. unfold picks_a1. intuition lia.
Qed.

Lemma in_a8_candidates (centroid : Vector4f) (data : list point) (i : nat) :
  In i (a8_candidates (corner_candidates centroid data)) <->
  (i < length data)%nat /\ is_a8 centroid (nth i data origin) = true.
Proof.
  rewrite corner_candidates_filter. cbn [a8_candidates].
  rewrite filter_In, in_seq. unfold picks_a8.
  pose proof (a1_excludes_a8 centroid (nth i data origin)) as H18.
  destruct (is_a1 centroid (nth i data origin));
    destruct (is_a8 centroid (nth i data origin)); simpl;
    try (specialize (H18 eq_refl)); intuition (try discriminate; try lia).
Qed.

Lemma in_h1_candidates (centroid : Vector4f) (data : list point) (i : nat) :
  In i (h1_candidates (corner_candidates centroid data)) <->
  (i < length data)%nat /\ is_h1 centroid (nth i data origin) = true.
Proof.
  rewrite corner_candidates_filter. cbn [h1_candidates].
  rewrite filter_In, in_seq. unfold picks_h1.
  pose proof (a1_excludes_h1 centroid (nth i data origin)) as H1h.
  pose proof (a8_excludes_h1 centroid (nth i data origin)) as H8h.
  destruct (is_a1 centroid (nth i data origin));
    destruct (is_a8 centroid (nth i data origin));
    destruct (is_h1 centroid (nth i data origin)); simpl;
    try (specialize (H1h eq_refl)); try (specialize (H8h eq_refl));
    intuition (try discriminate; try lia).
Qed.

(** X8: the order of the [if / else if] chain plays no part: each candidate
    list holds exactly the indexes, all within [data], of the points that
    pass its own test. *)
Theorem X8_candidates_by_test (centroid : Vector4f) (data : list point) (i : nat) :
  let c := corner_candidates centroid data in
  (In i (a1_candidates c) <->
   (i < length data)%nat /\ is_a1 centroid (nth i data origin) = true)
  /\ (In i (a8_candidates c) <->
      (i < length data)%nat /\ is_a8 centroid (nth i data origin) = true)
  /\ (In i (h1_candidates c) <->
      (i < length data)%nat /\ is_h1 centroid (nth i data origin) = true).
Proof.
  cbv zeta. split; [|split].
  - apply in_a1_candidates.
  - apply in_a8_candidates.
  - apply in_h1_candidates.
Qed.

Lemma filter_none {A} (p : A -> bool) (l : list A) :
  (forall a, In a l -> p a = false) -> filter p l = [].
Proof.
  induction l as [|a l IH]; intros H; simpl; [reflexivity|].
  rewrite (H a) by now left. apply IH. intros b Hb. apply H. now right.
Qed.

Lemma ltb_nan_r (a : float) : Float.ltb a FNaN = false.
Proof. now destruct a. Qed.

Lemma tests_fail_without_centroid (c : Vector4f) (p : point) :
  c0 c = FNaN \/ c1 c = FNaN ->
  is_a1 c p = false /\ is_a8 c p = false /\ is_h1 c p = false.
Proof.
  unfold is_a1, is_a8, is_h1, Float.gtb. intros [H | H]; rewrite H.
  - change (Float.sub FNaN margin) with FNaN.
    change (Float.add FNaN margin) with FNaN.
    rewrite ltb_nan_r, ltb_nan_l. auto.
  - change (Float.sub FNaN margin) with FNaN.
    change (Float.add FNaN margin) with FNaN.
    rewrite ltb_nan_r, ltb_nan_l, !andb_false_r. auto.
Qed.

Lemma picks_fail_without_centroid (c : Vector4f) (data : list point) (i : nat) :
  c0 c = FNaN \/ c1 c = FNaN ->
  picks_a1 c data i = false /\ picks_a8 c data i = false
  /\ picks_h1 c data i = false.
Proof.
  intros H. unfold picks_a1, picks_a8, picks_h1.
  destruct (tests_fail_without_centroid c (nth i data origin) H) as (H1 & H8 & Hh).
  rewrite H1, H8, Hh. auto.
Qed.

(** X9: with a centroid whose [x] or [y] is a NaN every comparison of the
    selector is false, and the three candidate lists are empty. *)
Theorem X9_no_candidate_without_centroid (centroid : Vector4f) (data : list point) :
  c0 centroid = FNaN \/ c1 centroid = FNaN ->
  corner_candidates centroid data = mkCandidates [] [] [].
Proof.
  intros H. rewrite corner_candidates_filter.
  rewrite !filter_none; [reflexivity| | |]; intros i _;
    now destruct (picks_fail_without_centroid centroid data i H) as (H1 & H8 & Hh).
Qed.

Lemma X9_no_candidate_without_centroid_witness :
  corner_candidates (mkVector4f FNaN (FVal 0) (FVal 0) (FVal 0)) four_points
  = mkCandidates [] [] [].
Proof.
  apply (X9_no_candidate_without_centroid
           (mkVector4f FNaN (FVal 0) (FVal 0) (FVal 0)) four_points).
  left. reflexivity.
Defined.

(** ** Frames on which the search has nothing to visit *)

(** X10: when the centroid PCL computes has a NaN [x] or [y], which a board
    point with NaN coordinates can cause, no triple is evaluated and the
    callback sends the transform of the unassigned matrix. *)
Theorem X10_callback_without_centroid `{PCL} (lines : list Vec4i)
  (cloud : PointCloudRGB) :
  c0 (compute3DCentroid (board_points lines cloud)) = FNaN
  \/ c1 (compute3DCentroid (board_points lines cloud)) = FNaN ->
  cameraCallback lines cloud = [SendTransform Uninitialized].
Proof.
  intros Hc. unfold cameraCallback, callback_search, callback_candidates.
  cbv zeta. set (data := board_points lines cloud) in *.
  assert (He : corner_candidates (compute3DCentroid data) data
               = mkCandidates [] [] []).
  { rewrite corner_candidates_filter.
    rewrite !filter_none; [reflexivity| | |]; intros i _;
      now destruct (picks_fail_without_centroid _ data i Hc) as (H1 & H8 & Hh). }
  rewrite He, search_without_triples by (now left). reflexivity.
Qed.

Lemma X10_callback_without_centroid_witness :
  @cameraCallback Translation.pcl crossing_lines blind_cloud
  = [SendTransform Uninitialized].
Proof.
  apply (@X10_callback_without_centroid Translation.pcl crossing_lines blind_cloud).
  left. vm_compute. reflexivity.
Defined.

(** X11: with fewer than three board points one of the candidate lists is
    empty, since no point is in two of them, and the callback sends the
    transform of the unassigned matrix. *)
Theorem X11_three_points_needed `{PCL} (lines : list Vec4i) (cloud : PointCloudRGB) :
  (length (board_points lines cloud) < 3)%nat ->
  cameraCallback lines cloud = [SendTransform Uninitialized].
Proof.
  intros Hlen. unfold cameraCallback, callback_search, callback_candidates.
  cbv zeta. set (data := board_points lines cloud) in *.
  set (centroid := compute3DCentroid data).
  rewrite search_without_triples; [reflexivity|].
  destruct (a1_candidates (corner_candidates centroid data)) as [|i l1] eqn:E1;
    [now left|].
  destruct (a8_candidates (corner_candidates centroid data)) as [|j l8] eqn:E8;
    [right; now left|].
  destruct (h1_candidates (corner_candidates centroid data)) as [|k lh] eqn:Eh;
    [right; now right|].
  exfalso.
  pose proof (in_a1_candidates centroid data i) as Hi.
  pose proof (in_a8_candidates centroid data j) as Hj.
  pose proof (in_h1_candidates centroid data k) as Hk.
  rewrite E1 in Hi. rewrite E8 in Hj. rewrite Eh in Hk.
  destruct (proj1 Hi (or_introl eq_refl)) as [Li Ti].
  destruct (proj1 Hj (or_introl eq_refl)) as [Lj Tj].
  destruct (proj1 Hk (or_introl eq_refl)) as [Lk Tk].
  assert (Hij : i <> j).
  { intros ->. rewrite (a1_excludes_a8 _ _ Ti) in Tj. discriminate. }
  assert (Hik : i <> k).
  { intros ->. rewrite (a1_excludes_h1 _ _ Ti) in Tk. discriminate. }
  assert (Hjk : j <> k).
  { intros ->. rewrite (a8_excludes_h1 _ _ Tj) in Tk. discriminate. }
  lia.
Qed.

Lemma X11_three_points_needed_witness :
  @cameraCallback Translation.pcl crossing_lines (fun _ _ => as_entry origin)
  = [SendTransform Uninitialized].
Proof.
  apply (@X11_three_points_needed Translation.pcl crossing_lines
           (fun _ _ => as_entry origin)).
  apply Nat.ltb_lt. vm_compute. reflexivity.
Defined.

(** ** The state the search ends in *)

Lemma search_holds_best `{PCL} (data : list point) (c : candidates) :
  holds_best (results data c) (search data c).
Proof.
  unfold search. rewrite search_from_results.
  apply (fold_update_holds_best (results data c) [] initial_state);
    [constructor | apply results_proper | reflexivity].
Qed.

Lemma evaluate_score `{PCL} (data : list point) (i j k : nat) :
  exists s, fst (evaluate data i j k) = FVal s /\ (0 <= s)%Q.
Proof.
  unfold evaluate. cbn [fst].
  set (moved := transformPointCloud data _).
  exists (fit_value moved). split; [apply fit_error_value | apply fit_value_nonneg].
Qed.

Lemma results_in `{PCL} (data : list point) (c : candidates)
  (r : float * Matrix4f) :
  In r (results data c) <->
  exists i j k, In (i, j, k) (triples c) /\ r = evaluate data i j k.
Proof.
  unfold results. rewrite in_map_iff. split.
  - intros ([[i j] k] & <- & Hin). now exists i, j, k.
  - intros (i & j & k & Hin & ->). now exists (i, j, k).
Qed.

(** The state after the search: untouched, or a result of least error. *)
Lemma search_outcome `{PCL} (data : list point) (c : candidates) :
  (triples c = [] /\ search data c = initial_state)
  \/ (exists r, In r (results data c)
                /\ search data c = mkState (fst r) (Assigned (snd r))
                /\ forall r', In r' (results data c) ->
                              Float.leb (fst r) (fst r') = true).
Proof.
  pose proof (search_holds_best data c) as Hb. unfold holds_best in Hb.
  destruct (results data c) as [|r0 rs] eqn:Hres.
  - left. split; [|exact Hb].
    unfold results in Hres. now apply map_eq_nil in Hres.
  - right. destruct Hb as (n & r & (Hn & Hle & _) & Hst).
    exists r. split; [now apply nth_error_In in Hn|]. split; [exact Hst|].
    intros r' Hr'. apply In_nth_error in Hr'. destruct Hr' as [m Hm].
    now apply (Hle m).
Qed.

(** X14: after the loops, [best_score] is [-1] and [best_transform] is
    unassigned when no triple was visited; otherwise [best_transform] is
    assigned and [best_score] is a number that is not negative.  A negative
    [best_score] is thus the mark of a search without result. *)
Theorem X14_best_score_flag `{PCL} (data : list point) (c : candidates) :
  (triples c = []
   /\ best_score (search data c) = FVal (-1)%Q
   /\ best_transform (search data c) = Uninitialized)
  \/ (triples c <> []
      /\ exists s t, best_score (search data c) = FVal s
                     /\ best_transform (search data c) = Assigned t
                     /\ (0 <= s)%Q).
Proof.
  destruct (search_outcome data c) as [[Ht Hs] | (r & Hin & Hs & _)].
  - left. rewrite Hs. auto.
  - right. split.
    + intros Ht. unfold results in Hin. rewrite Ht in Hin. exact Hin.
    + apply results_in in Hin. destruct Hin as (i & j & k & _ & ->).
      destruct (evaluate_score data i j k) as (s & Hsc & Hb).
      exists s, (snd (evaluate data i j k)). rewrite Hs.
      cbn [best_score best_transform]. auto.
Qed.

Lemma triples_same_members (c c' : candidates) :
  same_members (a1_candidates c) (a1_candidates c') ->
  same_members (a8_candidates c) (a8_candidates c') ->
  same_members (h1_candidates c) (h1_candidates c') ->
  forall tr, In tr (triples c) <-> In tr (triples c').
Proof.
  intros H1 H8 Hh [[i j] k]. rewrite !triples_in.
  unfold same_members in *. rewrite H1, H8, Hh. reflexivity.
Qed.

(** X15: the final [best_score] does not depend on the order in which the
    candidates are listed: two enumerations of the same candidates end with
    equal scores (the order only decides which of several transforms of
    that score is kept). *)
Theorem X15_best_score_order_free `{PCL} (data : list point) (c c' : candidates) :
  same_members (a1_candidates c) (a1_candidates c') ->
  same_members (a8_candidates c) (a8_candidates c') ->
  same_members (h1_candidates c) (h1_candidates c') ->
  Float.eq (best_score (search data c)) (best_score (search data c')).
Proof.
  intros H1 H8 Hh.
  pose proof (triples_same_members c c' H1 H8 Hh) as Hsame.
  assert (Hres : forall r, In r (results data c) <-> In r (results data c')).
  { intros r. rewrite !results_in. split; intros (i & j & k & Hin & ->);
      exists i, j, k; (split; [now apply Hsame | reflexivity]). }
  destruct (search_outcome data c) as [[Ht Hs] | (r & Hin & Hs & Hmin)];
    destruct (search_outcome data c') as [[Ht' Hs'] | (r' & Hin' & Hs' & Hmin')].
  - rewrite Hs, Hs'. simpl. reflexivity.
  - exfalso. apply Hres in Hin'. unfold results in Hin'.
    rewrite Ht in Hin'. exact Hin'.
  - exfalso. apply Hres in Hin. unfold results in Hin.
    rewrite Ht' in Hin. exact Hin.
  - rewrite Hs, Hs'. cbn [best_score].
    pose proof (Hmin r' (proj2 (Hres r') Hin')) as Hle.
    pose proof (Hmin' r (proj1 (Hres r) Hin)) as Hle'.
    apply leb_FVal in Hle. destruct Hle as (p & q & Hp & Hq & Hpq).
    apply leb_FVal in Hle'. destruct Hle' as (q' & p' & Hq' & Hp' & Hqp).
    rewrite Hp in *. rewrite Hq in *. injection Hq' as <-. injection Hp' as <-.
    simpl. lra.
Qed.

Lemma X15_best_score_order_free_witness :
  Float.eq
    (best_score (@search Translation.pcl four_points four_points_candidates))
    (best_score (@search Translation.pcl four_points
                   (mkCandidates [3; 1] [0] [2])%nat)).
Proof.
  apply (@X15_best_score_order_free Translation.pcl four_points
           four_points_candidates (mkCandidates [3; 1] [0] [2])%nat).
  - intros i. change (a1_candidates four_points_candidates) with [1; 3]%nat.
    simpl. tauto.
  - intros i. change (a8_candidates four_points_candidates) with [0]%nat.
    simpl. tauto.
  - intros i. change (h1_candidates four_points_candidates) with [2]%nat.
    simpl. tauto.
Defined.

(** ** Integers as doubles *)

Lemma iter_xO_digits (p k : positive) :
  digits2_pos (Pos.iter xO p k) = (digits2_pos p + k)%positive.
Proof.
  induction k as [|k IH] using Pos.peano_ind.
  - simpl. lia.
  - rewrite Pos.iter_succ. simpl. rewrite IH. lia.
Qed.

Lemma iter_xO_value (p k : positive) :
  Zpos (Pos.iter xO p k) = Zpos p * 2 ^ Zpos k.
Proof.
  induction k as [|k IH] using Pos.peano_ind.
  - simpl. lia.
  - rewrite Pos.iter_succ, Pos2Z.inj_xO, IH, Pos2Z.inj_succ, Z.pow_succ_r by lia.
    lia.
Qed.

(** A mantissa of exactly 53 bits with a moderate exponent goes through the
    rounding untouched. *)
Lemma round_aux_exact (s : bool) (m : positive) (e : Z) :
  Zpos (digits2_pos m) = 53 -> - 1021 <= e <= 971 ->
  binary_round_aux Double.prec Double.emax s (Zpos m) e loc_Exact
  = S754_finite s m e.
Proof.
  intros Hd He.
  assert (Hshr : shr_fexp Double.prec Double.emax (Zpos m) e loc_Exact
                 = (Build_shr_record (Zpos m) false false, e)).
  { unfold shr_fexp, shr, shr_record_of_loc.
    assert (Hn : fexp Double.prec Double.emax (Zdigits2 (Zpos m) + e) - e = 0).
    { unfold fexp, emin, Double.prec, Double.emax. std_Z.
      simpl Zdigits2. rewrite Hd. lia. }
    now rewrite Hn. }
  unfold binary_round_aux. rewrite Hshr.
  cbn [shr_m loc_of_shr_record round_nearest_even].
  rewrite Hshr. cbn [shr_m].
  assert (Hle : (e <=? Double.emax - Double.prec) = true)
    by (apply Z.leb_le; unfold Double.emax, Double.prec; lia).
  change (IntDef.Z.leb e (IntDef.Z.sub Double.emax Double.prec))
    with (e <=? Double.emax - Double.prec).
  now rewrite Hle.
Qed.

Lemma round_int (s : bool) (p : positive) :
  Zpos (digits2_pos p) <= 53 ->
  exists m e, binary_round Double.prec Double.emax s p 0 = S754_finite s m e
              /\ - 52 <= e <= 0 /\ Zpos m = Zpos p * 2 ^ (- e).
Proof.
  intros Hd. unfold binary_round, shl_align.
  assert (Hf : fexp Double.prec Double.emax (Zpos (digits2_pos p) + 0)
               = Zpos (digits2_pos p) - 53).
  { unfold fexp, emin, Double.prec, Double.emax. std_Z. lia. }
  std_Z. rewrite Hf. rewrite Z.sub_0_r.
  destruct (Zpos (digits2_pos p) - 53) as [|k|k] eqn:Hk; try lia.
  - exists p, 0. split; [|split; [lia|]].
    + apply round_aux_exact; lia.
    + simpl. lia.
  - exists (Pos.iter xO p k), (Zneg k). split; [|split].
    + apply round_aux_exact; [|lia]. rewrite iter_xO_digits. lia.
    + lia.
    + rewrite iter_xO_value. reflexivity.
Qed.

Lemma small_digits (p : positive) :
  Zpos p < 2 ^ 53 -> Zpos (digits2_pos p) <= 53.
Proof.
  intros H. rewrite digits2_size.
  destruct (Z.le_gt_cases (Zpos (Pos.size p)) 53) as [Hle | Hgt]; [exact Hle|].
  exfalso. pose proof (Pos.size_le p) as Hs.
  assert (H2 : 2 ^ 53 <= 2 ^ (Zpos (Pos.size p) - 1))
    by (apply Z.pow_le_mono_r; lia).
  assert (H3 : 2 ^ Zpos (Pos.size p) = 2 * 2 ^ (Zpos (Pos.size p) - 1)).
  { rewrite <- Z.pow_succ_r by lia. f_equal. lia. }
  apply Pos2Z.pos_le_pos in Hs. rewrite Pos2Z.inj_pow in Hs.
  change (Z.pos 2) with 2 in Hs. lia.
Qed.

(** The conversion of an [int] to [double] is exact. *)
Lemma of_int_exact (z : Z) :
  Int.in_range z ->
  (z = 0 /\ Double.of_int z = S754_zero false)
  \/ (z <> 0 /\ exists m e, Double.of_int z = S754_finite (z <? 0) m e
                            /\ - 52 <= e <= 0 /\ Zpos m = Z.abs z * 2 ^ (- e)).
Proof.
  unfold Int.in_range, Int.half_modulus. intros Hz.
  destruct z as [|p|p].
  - left. split; reflexivity.
  - right. split; [discriminate|]. apply (round_int false p).
    apply small_digits. lia.
  - right. split; [discriminate|]. apply (round_int true p).
    apply small_digits. lia.
Qed.

(** [(int)(double)z] is [z]. *)
Lemma to_int_of_int (z : Z) :
  0 <= z < 2 ^ 31 -> Double.to_int (Double.of_int z) = z.
Proof.
  intros Hz.
  destruct (of_int_exact z) as [[-> ->] | (Hne & m & e & -> & He & Hm)].
  - unfold Int.in_range, Int.half_modulus. lia.
  - reflexivity.
  - assert (Hs : (z <? 0) = false) by (apply Z.ltb_ge; lia).
    rewrite Hs. unfold Double.to_int. cbv zeta. cbn [cond_Zopp].
    assert (Ht : Z.shiftl (Zpos m) e = z).
    { destruct (Z.eq_dec e 0) as [-> | Hne0].
      - simpl in Hm. rewrite Z.shiftl_0_r. lia.
      - rewrite Z.shiftl_div_pow2 by lia. rewrite Hm, Z.abs_eq by lia.
        apply Z.div_mul. apply Z.pow_nonzero; lia. }
    rewrite Ht.
    assert (Hr : (Int.min_signed <=? z) && (z <? Int.half_modulus) = true).
    { apply andb_true_intro. unfold Int.min_signed, Int.half_modulus.
      split; [apply Z.leb_le | apply Z.ltb_lt]; lia. }
    now rewrite Hr.
Qed.

(** ** The row of a flat segment *)

Lemma int_sub_diag (z : Z) : Int.sub z z = 0.
Proof. unfold Int.sub. now rewrite Z.sub_diag. Qed.

(** The slope of a segment with [y1 = y2]: a zero, or the NaN of [0/0]. *)
Lemma slope_flat (a : Vec4i) :
  v3 a = v1 a ->
  Traced.value (slope a) = S754_nan
  \/ exists s, Traced.value (slope a) = S754_zero s.
Proof.
  intros H. unfold slope, Traced.divide, Traced.value. cbn [fst].
  rewrite H, int_sub_diag, of_int_zero.
  destruct (Double.of_int (Int.sub (v2 a) (v0 a))) as [s|s| |s m e];
    simpl; eauto.
Qed.

Lemma mul_zero_l (s : bool) (y : Double.double) :
  Double.mul (S754_zero s) y = S754_nan
  \/ exists s', Double.mul (S754_zero s) y = S754_zero s'.
Proof. destruct y as [t|t| |t m e]; simpl; eauto. Qed.

Lemma intersection_y (a b : Vec4i) :
  snd (intersection_xy a b) =
  Double.add (Double.mul (Traced.value (slope a)) (fst (intersection_xy a b)))
             (intercept a (Traced.value (slope a))).
Proof. reflexivity. Qed.

Lemma add_nan_l (d : Double.double) : Double.add S754_nan d = S754_nan.
Proof. reflexivity. Qed.

Lemma in_image_nan_y (x : Double.double) : in_image x S754_nan = false.
Proof. unfold in_image. simpl. now rewrite !andb_false_r. Qed.

(** The intercept computed with a zero slope: the row [y1] itself. *)
Lemma intercept_flat (a : Vec4i) (s : bool) :
  Int.in_range (v1 a) ->
  intercept a (S754_zero s) = S754_nan
  \/ (v1 a = 0 /\ exists s', intercept a (S754_zero s) = S754_zero s')
  \/ (v1 a <> 0 /\ intercept a (S754_zero s) = Double.of_int (v1 a)
      /\ exists m e, Double.of_int (v1 a) = S754_finite (v1 a <? 0) m e).
Proof.
  intros Hr. unfold intercept.
  destruct (mul_zero_l s (Double.of_int (v0 a))) as [-> | [s' ->]].
  - left. destruct (Double.of_int (v1 a)); reflexivity.
  - right. destruct (of_int_exact (v1 a) Hr) as [[H0 Hz] | (Hne & m & e & Hz & _)].
    + left. split; [exact H0|]. rewrite Hz. destruct s'; eexists; reflexivity.
    + right. split; [exact Hne|]. rewrite Hz.
      split; [reflexivity | now exists m, e].
Qed.

Lemma flat_row (a b : Vec4i) :
  v3 a = v1 a -> Int.in_range (v1 a) ->
  in_image (fst (intersection_xy a b)) (snd (intersection_xy a b)) = true ->
  Double.to_int (snd (intersection_xy a b)) = v1 a.
Proof.
  intros Hflat Hr. rewrite intersection_y.
  set (x := fst (intersection_xy a b)).
  destruct (slope_flat a Hflat) as [-> | [s ->]].
  { change (Double.mul S754_nan x) with S754_nan.
    rewrite add_nan_l, in_image_nan_y. discriminate. }
  destruct (mul_zero_l s x) as [-> | [s' ->]].
  { rewrite add_nan_l, in_image_nan_y. discriminate. }
  destruct (intercept_flat a s Hr)
    as [-> | [[H0 [s'' ->]] | (Hne & -> & m & e & Hz)]].
  - assert (Hn : Double.add (S754_zero s') S754_nan = S754_nan) by reflexivity.
    rewrite Hn, in_image_nan_y. discriminate.
  - intros _. rewrite H0. destruct s', s''; reflexivity.
  - rewrite Hz.
    assert (Hadd : Double.add (S754_zero s') (S754_finite (v1 a <? 0) m e)
                   = S754_finite (v1 a <? 0) m e) by reflexivity.
    rewrite Hadd. intros Hin.
    unfold in_image in Hin.
    apply andb_prop in Hin. destruct Hin as [Hin _].
    apply andb_prop in Hin. destruct Hin as [_ Hy].
    destruct (v1 a <? 0) eqn:Hsign; [discriminate|].
    apply Z.ltb_ge in Hsign.
    rewrite <- Hz. apply to_int_of_int.
    unfold Int.in_range, Int.half_modulus in Hr. lia.
Qed.

(** X17: when the first segment is flat ([y1 = y2], an [int]), the pixel
    [findIntersection] returns, if it is not the sentinel, lies in the row
    of that segment: [p.y = y1], with no rounding error. *)
Theorem X17_flat_segment_row (a b : Vec4i) :
  v3 a = v1 a -> Int.in_range (v1 a) ->
  findIntersection a b = invalid \/ py (findIntersection a b) = v1 a.
Proof.
  intros Hflat Hr. rewrite findIntersection_xy.
  pose proof (flat_row a b Hflat Hr) as H.
  destruct (intersection_xy a b) as [x y]. cbn [fst snd] in H.
  destruct (in_image x y); [right | now left].
  cbn [py]. now apply H.
Qed.

Lemma X17_flat_segment_row_witness :
  py (findIntersection (mkVec4i 0 100 600 100) (mkVec4i 100 0 101 450)) = 100.
Proof.
  destruct (X17_flat_segment_row (mkVec4i 0 100 600 100) (mkVec4i 100 0 101 450))
    as [H | H].
  - reflexivity.
  - unfold Int.in_range, Int.half_modulus. simpl. lia.
  - vm_compute in H. discriminate H.
  - exact H.
Defined.

(** ** The blue channel *)

Lemma nth_bgr8 (pixels : list BGR) (j : nat) (d : BGR) :
  (j < length pixels)%nat ->
  nth (j * 3) (bgr8 pixels) 0 = blue (nth j pixels d).
Proof.
  revert j. induction pixels as [|p pixels IH]; intros j Hj; simpl in Hj; [lia|].
  destruct j as [|j]; [reflexivity|].
  simpl. apply IH. lia.
Qed.

Lemma map_nth_seq {A B} (f : A -> B) (l : list A) (d : A) :
  map (fun j => f (nth j l d)) (seq 0 (length l)) = map f l.
Proof.
  induction l as [|a l IH]; [reflexivity|].
  simpl. f_equal. rewrite <- seq_shift, map_map. exact IH.
Qed.

Lemma blue_row_bgr8 (pixels : list BGR) :
  blue_row (length pixels) (bgr8 pixels) = map blue pixels.
Proof.
  unfold blue_row. rewrite <- (map_nth_seq blue pixels (mkBGR 0 0 0)).
  apply map_ext_in. intros j Hj. apply in_seq in Hj. apply nth_bgr8. lia.
Qed.

(** X18: on an image whose rows are the "bgr8" bytes of [cols] pixels, the
    matrix [src] the two copy loops build holds the blue component of every
    pixel, as the comment of the class says, and nothing of the two other
    channels. *)
Theorem X18_blue_plane_is_blue (image : Mat) (pixels : nat -> list BGR) :
  (forall i, (i < rows image)%nat ->
             ptr image i = bgr8 (pixels i) /\ length (pixels i) = cols image) ->
  blue_plane image = map (fun i => map blue (pixels i)) (seq 0 (rows image)).
Proof.
  intros H. unfold blue_plane. apply map_ext_in. intros i Hi.
  apply in_seq in Hi. destruct (H i) as [-> <-]; [lia|].
  apply blue_row_bgr8.
Qed.

Lemma X18_blue_plane_is_blue_witness :
  blue_plane two_pixel_image = [[1; 4]].
Proof.
  apply (X18_blue_plane_is_blue two_pixel_image (fun _ => two_pixels)).
  intros i Hi. split; reflexivity.
Defined.

(** ** The triples handed to the rigid fit *)

Lemma below_margin (a b : float) :
  Float.ltb a (Float.sub b margin) = true ->
  exists p q, a = FVal p /\ b = FVal q /\ (p < q - (5 # 100))%Q.
Proof.
  intros H. apply ltb_FVal in H. destruct H as (p & w & -> & Hw & Hlt).
  destruct b as [|q]; [discriminate|]. injection Hw as <-.
  now exists p, q.
Qed.

Lemma above_margin (a b : float) :
  Float.gtb a (Float.add b margin) = true ->
  exists p q, a = FVal p /\ b = FVal q /\ (q + (5 # 100) < p)%Q.
Proof.
  unfold Float.gtb. intros H. apply ltb_FVal in H.
  destruct H as (w & p & Hw & -> & Hlt).
  destruct b as [|q]; [discriminate|]. injection Hw as <-.
  now exists p, q.
Qed.

Lemma triples_length (c : candidates) :
  length (triples c)
  = (length (a1_candidates c) * (length (a8_candidates c) * length (h1_candidates c)))%nat.
Proof.
  unfold triples.
  assert (Hinner : forall i : nat,
             length (flat_map
                       (fun j : nat => map (fun k : nat => (i, j, k)) (h1_candidates c))
                       (a8_candidates c))
             = (length (a8_candidates c) * length (h1_candidates c))%nat).
  { intros i. induction (a8_candidates c) as [|j l IH]; simpl; [reflexivity|].
    now rewrite length_app, length_map, IH. }
  induction (a1_candidates c) as [|i l IH]; simpl; [reflexivity|].
  now rewrite length_app, Hinner, IH.
Qed.

(** X19: the loops evaluate [|a1| * |a8| * |h1|] triples, the number the
    callback logs, and every triple they evaluate is made of three indexes
    within [data] whose points have numeric [x] and [y]: the [y] of the a1
    point exceeds that of the a8 point by more than 0.1, and the [x] of the
    h1 point exceeds those of both by more than 0.1.  No two points of a
    triple coincide. *)
Theorem X19_triples_well_formed (centroid : Vector4f) (data : list point)
  (i j k : nat) :
  let c := corner_candidates centroid data in
  length (triples c)
  = (length (a1_candidates c) * (length (a8_candidates c) * length (h1_candidates c)))%nat
  /\ (In (i, j, k) (triples c) ->
      (i < length data)%nat /\ (j < length data)%nat /\ (k < length data)%nat
      /\ exists x1 y1 x8 y8 xh yh : Q,
          PointXYZ.x (nth i data origin) = FVal x1
          /\ PointXYZ.y (nth i data origin) = FVal y1
          /\ PointXYZ.x (nth j data origin) = FVal x8
          /\ PointXYZ.y (nth j data origin) = FVal y8
          /\ PointXYZ.x (nth k data origin) = FVal xh
          /\ PointXYZ.y (nth k data origin) = FVal yh
          /\ (y8 + (1 # 10) < y1)%Q /\ (x1 + (1 # 10) < xh)%Q
          /\ (x8 + (1 # 10) < xh)%Q).
Proof.
  cbv zeta. split; [apply triples_length|].
  intros Hin. apply triples_in in Hin. destruct Hin as (Hi & Hj & Hk).
  apply in_a1_candidates in Hi. destruct Hi as [Li Ti].
  apply in_a8_candidates in Hj. destruct Hj as [Lj Tj].
  apply in_h1_candidates in Hk. destruct Hk as [Lk Tk].
  repeat (split; [assumption|]).
  unfold is_a1 in Ti. apply andb_prop in Ti. destruct Ti as [Tix Tiy].
  unfold is_a8 in Tj. apply andb_prop in Tj. destruct Tj as [Tjx Tjy].
  unfold is_h1 in Tk. apply andb_prop in Tk. destruct Tk as [Tkx Tky].
  apply below_margin in Tix. destruct Tix as (x1 & cx & Hx1 & Hcx & B1).
  apply above_margin in Tiy. destruct Tiy as (y1 & cy & Hy1 & Hcy & B2).
  apply below_margin in Tjx. destruct Tjx as (x8 & cx' & Hx8 & Hcx' & B3).
  apply below_margin in Tjy. destruct Tjy as (y8 & cy' & Hy8 & Hcy' & B4).
  apply above_margin in Tkx. destruct Tkx as (xh & cx'' & Hxh & Hcx'' & B5).
  apply above_margin in Tky. destruct Tky as (yh & cy'' & Hyh & Hcy'' & B6).
  rewrite Hcx in Hcx', Hcx''. injection Hcx' as <-. injection Hcx'' as <-.
  rewrite Hcy in Hcy', Hcy''. injection Hcy' as <-. injection Hcy'' as <-.
  exists x1, y1, x8, y8, xh, yh.
  repeat (split; [assumption|]). repeat split; lra.
Qed.

Lemma X19_triples_well_formed_witness :
  (1 < length four_points)%nat /\ (0 < length four_points)%nat
  /\ (2 < length four_points)%nat.
Proof.
  destruct (proj2 (X19_triples_well_formed (Translation.centroid four_points)
                     four_points 1 0 2)) as (H1 & H0 & H2 & _).
  - vm_compute. left. reflexivity.
  - auto.
Defined.

(** * Properties to the bit *)

(** ** The order of the values that are not negative *)

Lemma leb_finite (m1 m2 : positive) (e1 e2 : Z) :
  SFleb (S754_finite false m1 e1) (S754_finite false m2 e2) = true
  <-> e1 < e2 \/ (e1 = e2 /\ (m1 <= m2)%positive).
Proof.
  unfold SFleb, SFcompare.
  change (IntDef.Z.compare e1 e2) with (e1 ?= e2).
  change (PosDef.Pos.compare_cont Eq m1 m2) with (m1 ?= m2)%positive.
  destruct (Z.compare_spec e1 e2) as [He | He | He].
  - destruct (Pos.compare_spec m1 m2) as [Hm | Hm | Hm]; split; intros H;
      try discriminate; try reflexivity; try lia.
  - split; [intros _; lia | reflexivity].
  - split; [discriminate | lia].
Qed.

Lemma ltb_finite (m1 m2 : positive) (e1 e2 : Z) :
  SFltb (S754_finite false m1 e1) (S754_finite false m2 e2) = true
  <-> e1 < e2 \/ (e1 = e2 /\ (m1 < m2)%positive).
Proof.
  unfold SFltb, SFcompare.
  change (IntDef.Z.compare e1 e2) with (e1 ?= e2).
  change (PosDef.Pos.compare_cont Eq m1 m2) with (m1 ?= m2)%positive.
  destruct (Z.compare_spec e1 e2) as [He | He | He].
  - destruct (Pos.compare_spec m1 m2) as [Hm | Hm | Hm]; split; intros H;
      try discriminate; try reflexivity; try lia.
  - split; [intros _; lia | reflexivity].
  - split; [discriminate | lia].
Qed.

Lemma leb_trans (x y z : spec_float) :
  nonneg x -> nonneg y -> nonneg z ->
  SFleb x y = true -> SFleb y z = true -> SFleb x z = true.
Proof.
  destruct x as [sx|sx| |sx mx ex], y as [sy|sy| |sy my ey], z as [sz|sz| |sz mz ez];
    simpl; intros Hx Hy Hz; subst; try contradiction; intros H1 H2;
    try reflexivity; try discriminate; try exact H1; try exact H2.
  apply leb_finite. apply leb_finite in H1, H2. lia.
Qed.

Lemma ltb_leb (x y : spec_float) : SFltb x y = true -> SFleb x y = true.
Proof.
  unfold SFltb, SFleb. destruct (SFcompare x y) as [[| |]|]; congruence.
Qed.

(** Of two numbers that are not negative, one is at most the other. *)
Lemma leb_total (x y : spec_float) :
  nonneg x -> nonneg y -> SFltb y x = false -> SFleb x y = true.
Proof.
  destruct x as [sx|sx| |sx mx ex], y as [sy|sy| |sy my ey];
    simpl; intros Hx Hy; subst; try contradiction; intros H;
    try reflexivity; try discriminate.
  apply leb_finite.
  destruct (Z.lt_trichotomy ex ey) as [He | [He | He]]; [lia | |].
  - destruct (Pos.leb_spec mx my) as [Hm | Hm]; [lia|].
    assert (Ht : SFltb (S754_finite false my ey) (S754_finite false mx ex) = true)
      by (apply ltb_finite; lia).
    congruence.
  - assert (Ht : SFltb (S754_finite false my ey) (S754_finite false mx ex) = true)
      by (apply ltb_finite; lia).
    congruence.
Qed.

Lemma leb_refl (x : spec_float) : nonneg x -> SFleb x x = true.
Proof.
  destruct x as [sx|sx| |sx mx ex]; simpl; intros Hx; subst;
    try contradiction; try reflexivity.
  apply leb_finite. lia.
Qed.


(** ** Sums and squares that are not negative *)

Section Signs.
Variables prec emax : Z.

Lemma round_aux_sign (mx ex : Z) (lx : location) :
  nonneg_or_nan (binary_round_aux prec emax false mx ex lx).
Proof.
  unfold binary_round_aux.
  destruct (shr_fexp prec emax mx ex lx) as [mrs' e'].
  destruct (shr_fexp prec emax _ e' loc_Exact) as [mrs'' e''].
  destruct (shr_m mrs'') as [|p|p]; [right; exact I| |now left].
  destruct (_ <=? _)%Z; right; reflexivity.
Qed.


Lemma round_sign (m : positive) (e : Z) :
  nonneg_or_nan (binary_round prec emax false m e).
Proof.
  unfold binary_round. destruct (shl_align m e _) as [mz ez].
  apply round_aux_sign.
Qed.

Lemma add_sign (x y : spec_float) :
  nonneg_or_nan x -> nonneg_or_nan y -> nonneg_or_nan (SFadd prec emax x y).
Proof.
  intros [-> | Hx]; [now left|]. intros [-> | Hy]; [destruct x; now left|].
  destruct x as [sx|sx| |sx mx ex], y as [sy|sy| |sy my ey];
    simpl in Hx, Hy; subst; try contradiction;
    try (right; exact I); try (right; reflexivity).
  - destruct sx, sy; right; exact I.
  - unfold SFadd. cbn [cond_Zopp].
    destruct (shl_align mx ex _) as [mx' ex'], (shl_align my ey _) as [my' ey'].
    cbn [fst]. apply round_sign.
Qed.

Lemma mul_self_sign (x : spec_float) : nonneg_or_nan (SFmul prec emax x x).
Proof.
  destruct x as [s|s| |s m e]; simpl.
  - right. exact I.
  - right. now destruct s.
  - now left.
  - replace (xorb s s) with false by now destruct s. apply round_aux_sign.
Qed.

End Signs.

Lemma of_double_sign (x : Double.double) :
  nonneg_or_nan x -> nonneg_or_nan (Single.of_double x).
Proof.
  intros [-> | Hx]; [now left|].
  destruct x as [s|s| |s m e]; simpl in Hx; subst; try contradiction;
    try (right; exact I); try (right; reflexivity).
  apply round_sign.
Qed.

Lemma grid_distance_sign (pt : Machine.point) (gx gy : Z) :
  nonneg_or_nan (Machine.grid_distance pt gx gy).
Proof.
  unfold Machine.grid_distance. apply of_double_sign.
  apply add_sign; apply mul_self_sign.
Qed.

(** ** The error of one point, to the bit *)

Lemma machine_point_error_flat (pt : Machine.point) :
  Machine.point_error pt
  = fold_left machine_min_step (machine_grid_distances pt) Machine.error_cap.
Proof.
  unfold Machine.point_error, machine_grid_distances.
  rewrite fold_left_flat_map.
  apply fold_left_ext_in. intros e gx _.
  rewrite fold_left_map. reflexivity.
Qed.

Lemma machine_grid_distances_in (pt : Machine.point) (d : Single.single) :
  In d (machine_grid_distances pt) <->
  exists gx gy, 1 <= gx <= 7 /\ 1 <= gy <= 7 /\ d = Machine.grid_distance pt gx gy.
Proof.
  unfold machine_grid_distances. rewrite in_flat_map. split.
  - intros (gx & Hx & Hd). apply in_map_iff in Hd. destruct Hd as (gy & <- & Hy).
    exists gx, gy. rewrite <- !grid_range_spec. auto.
  - intros (gx & gy & Hx & Hy & ->). exists gx.
    rewrite grid_range_spec. split; [exact Hx|].
    apply in_map_iff. exists gy. rewrite grid_range_spec. auto.
Qed.

(** The running minimum: what it is compared with, and where it comes from. *)
Lemma machine_fold_min (ds : list Single.single) (e0 : Single.single) :
  nonneg e0 -> Forall nonneg_or_nan ds ->
  let m := fold_left machine_min_step ds e0 in
  nonneg m
  /\ SFleb m e0 = true
  /\ (forall d, In d ds -> d <> S754_nan -> SFleb m d = true)
  /\ (m = e0 \/ In m ds).
Proof.
  revert e0. induction ds as [|d ds IH]; intros e0 He0 Hds; cbn zeta; cbn [fold_left].
  - split; [exact He0|]. split; [now apply leb_refl|].
    split; [intros d []|now left].
  - inversion Hds as [|? ? Hd Hds']; subst.
    assert (Hstep : machine_min_step e0 d = if SFltb d e0 then d else e0)
      by reflexivity.
    rewrite Hstep. destruct (SFltb d e0) eqn:Hlt.
    + assert (Hnn : nonneg d).
      { destruct Hd as [-> | Hd]; [discriminate | exact Hd]. }
      destruct (IH d Hnn Hds') as (Hm & Hle & Hall & Hin).
      split; [exact Hm|]. split; [|split].
      * apply (leb_trans _ d); try assumption. now apply ltb_leb.
      * intros d' [<- | Hd'] Hnan; [exact Hle | now apply Hall].
      * right. destruct Hin as [-> | Hin]; [now left | now right].
    + destruct (IH e0 He0 Hds') as (Hm & Hle & Hall & Hin).
      split; [exact Hm|]. split; [exact Hle|]. split.
      * intros d' [<- | Hd'] Hnan; [|now apply Hall].
        destruct Hd as [-> | Hd]; [congruence|].
        apply (leb_trans _ e0); try assumption. now apply leb_total.
      * destruct Hin as [-> | Hin]; [now left | right; now right].
Qed.

Lemma machine_grid_distances_sign (pt : Machine.point) :
  Forall nonneg_or_nan (machine_grid_distances pt).
Proof.
  apply Forall_forall. intros d Hd. apply machine_grid_distances_in in Hd.
  destruct Hd as (gx & gy & _ & _ & ->). apply grid_distance_sign.
Qed.

Lemma error_cap_nonneg : nonneg Machine.error_cap.
Proof. reflexivity. Qed.



(** ** Rounding keeps above the least exponent, and a sum above zero *)

Section Rounding.
Variables prec emax : Z.
Hypothesis prec_pos : 0 < prec.

Lemma fexp_ge_emin (e : Z) : emin prec emax <= fexp prec emax e.
Proof. unfold fexp. std_Z. lia. Qed.

Lemma shr_record_of_loc_m (m : Z) (l : location) :
  shr_m (shr_record_of_loc m l) = m.
Proof. destruct l as [|[| |]]; reflexivity. Qed.

(** After a shift the exponent is not below the least one. *)
Lemma shr_fexp_ground (m e : Z) (l : location) :
  0 <= m ->
  0 <= shr_m (fst (shr_fexp prec emax m e l))
  /\ emin prec emax <= snd (shr_fexp prec emax m e l).
Proof.
  intros Hm. unfold shr_fexp, shr.
  pose proof (fexp_ge_emin (Zdigits2 m + e)) as Hf.
  pose proof (shr_record_of_loc_m m l) as Hs.
  destruct (fexp prec emax (Zdigits2 m + e) - e) as [|p|p] eqn:Hn;
    cbn [fst snd].
  - split; [rewrite Hs; exact Hm | std_Z; lia].
  - split; [|std_Z; lia].
    apply iter_shr_1_digits. rewrite Hs. exact Hm.
  - split; [rewrite Hs; exact Hm | std_Z; lia].
Qed.

(** A mantissa above zero whose exponent is not below the least one is not
    shifted out. *)
Lemma shr_fexp_pos (m e : Z) (l : location) :
  0 < m -> emin prec emax <= e ->
  0 < shr_m (fst (shr_fexp prec emax m e l)).
Proof.
  intros Hm He. unfold shr_fexp, shr.
  assert (HD : 0 < Zdigits2 m).
  { destruct m as [|p|p]; try lia. simpl. lia. }
  pose proof (shr_record_of_loc_m m l) as Hs.
  destruct (fexp prec emax (Zdigits2 m + e) - e) as [|p|p] eqn:Hn;
    cbn [fst]; try (rewrite Hs; exact Hm).
  assert (Hp : Z.pos p = Zdigits2 m - prec).
  { unfold fexp in Hn. std_Z. lia. }
  destruct (iter_shr_1_digits p (shr_record_of_loc m l)) as [H0 D];
    [rewrite Hs; lia|].
  rewrite Hs in D.
  destruct (shr_m (iter_pos shr_1 p (shr_record_of_loc m l))) as [|q|q];
    [|lia|lia].
  simpl in D. lia.
Qed.

Lemma round_nearest_even_ge (m : Z) (l : location) :
  m <= round_nearest_even m l.
Proof.
  unfold round_nearest_even. destruct l as [|[| |]]; try lia.
  destruct (Z.even m); lia.
Qed.

(** A rounded value is a zero, a grounded finite value or an infinity, of
    the sign given. *)
Lemma round_aux_ground (s : bool) (m e : Z) (l : location) :
  0 <= m ->
  match binary_round_aux prec emax s m e l with
  | S754_zero s' | S754_infinity s' => s' = s
  | S754_finite s' _ e' => s' = s /\ emin prec emax <= e'
  | S754_nan => False
  end.
Proof.
  intros Hm. unfold binary_round_aux.
  destruct (shr_fexp_ground m e l Hm) as [H1 E1].
  destruct (shr_fexp prec emax m e l) as [mrs' e']. cbn [fst snd] in H1, E1.
  set (m1 := round_nearest_even (shr_m mrs') (loc_of_shr_record mrs')).
  assert (Hm1 : 0 <= m1).
  { pose proof (round_nearest_even_ge (shr_m mrs') (loc_of_shr_record mrs')).
    unfold m1. lia. }
  destruct (shr_fexp_ground m1 e' loc_Exact Hm1) as [H2 E2].
  destruct (shr_fexp prec emax m1 e' loc_Exact) as [mrs'' e''].
  cbn [fst snd] in H2, E2.
  destruct (shr_m mrs'') as [|q|q]; [reflexivity| |lia].
  destruct (e'' <=? emax - prec); [split; [reflexivity | exact E2] | reflexivity].
Qed.

(** Above zero and grounded, a value does not round to zero. *)
Lemma round_aux_pos (s : bool) (m e : Z) (l : location) :
  0 < m -> emin prec emax <= e ->
  match binary_round_aux prec emax s m e l with
  | S754_zero _ | S754_nan => False
  | _ => True
  end.
Proof.
  intros Hm He. unfold binary_round_aux.
  pose proof (shr_fexp_pos m e l Hm He) as H1.
  destruct (shr_fexp_ground m e l) as [_ E1]; [lia|].
  destruct (shr_fexp prec emax m e l) as [mrs' e']. cbn [fst snd] in H1, E1.
  set (m1 := round_nearest_even (shr_m mrs') (loc_of_shr_record mrs')).
  assert (Hm1 : 0 < m1).
  { pose proof (round_nearest_even_ge (shr_m mrs') (loc_of_shr_record mrs')).
    unfold m1. lia. }
  pose proof (shr_fexp_pos m1 e' loc_Exact Hm1 E1) as H2.
  destruct (shr_fexp prec emax m1 e' loc_Exact) as [mrs'' e''].
  cbn [fst] in H2.
  destruct (shr_m mrs'') as [|q|q]; [lia| |lia].
  now destruct (e'' <=? emax - prec).
Qed.

Lemma shl_align_ground (m : positive) (e e' : Z) :
  emin prec emax <= e -> emin prec emax <= e' ->
  emin prec emax <= snd (shl_align m e e').
Proof.
  intros He He'. unfold shl_align. now destruct (e' - e).
Qed.

Lemma round_ground (s : bool) (m : positive) (e : Z) :
  match binary_round prec emax s m e with
  | S754_zero s' | S754_infinity s' => s' = s
  | S754_finite s' _ e' => s' = s /\ emin prec emax <= e'
  | S754_nan => False
  end.
Proof.
  unfold binary_round. destruct (shl_align m e _) as [mz ez].
  apply round_aux_ground. lia.
Qed.

Lemma round_pos (s : bool) (m : positive) (e : Z) :
  emin prec emax <= e ->
  match binary_round prec emax s m e with
  | S754_zero _ | S754_nan => False
  | _ => True
  end.
Proof.
  intros He. unfold binary_round.
  pose proof (shl_align_ground m e (fexp prec emax (Z.pos (digits2_pos m) + e))
                He (fexp_ge_emin _)) as Hz.
  destruct (shl_align m e _) as [mz ez]. cbn [snd] in Hz.
  apply round_aux_pos; [lia | exact Hz].
Qed.

(** The sum of two values that are grounded and not negative is such a
    value, and it is a zero only when the two are. *)
Lemma add_ground (x y : spec_float) :
  nonneg x -> grounded prec emax x -> nonneg y -> grounded prec emax y ->
  nonneg (SFadd prec emax x y) /\ grounded prec emax (SFadd prec emax x y)
  /\ (Single.is_zero (SFadd prec emax x y) = true ->
      Single.is_zero x = true /\ Single.is_zero y = true).
Proof.
  destruct x as [sx|sx| |sx mx ex], y as [sy|sy| |sy my ey];
    simpl; intros Hx Gx Hy Gy; subst; try contradiction;
    try (split; [first [exact I | reflexivity] |
                 split; [first [exact I | exact Gx | exact Gy] |
                         first [discriminate | tauto]]]).
  - destruct sx, sy; simpl; auto.
  - cbn [cond_Zopp].
    destruct (shl_align mx ex _) as [mx' ex'], (shl_align my ey _) as [my' ey'].
    cbn [fst binary_normalize Z.add IntDef.Z.add].
    assert (He : emin prec emax <= IntDef.Z.min ex ey) by (std_Z; lia).
    pose proof (round_ground false (mx' + my') (IntDef.Z.min ex ey)) as Hg.
    pose proof (round_pos false (mx' + my') (IntDef.Z.min ex ey) He) as Hp.
    destruct (binary_round prec emax false (mx' + my') (IntDef.Z.min ex ey))
      as [s|s| |s m e]; try contradiction.
    + simpl. split; [exact Hg|]. split; [exact I | discriminate].
    + simpl. destruct Hg as [-> Hg]. split; [reflexivity|].
      split; [exact Hg | discriminate].
Qed.

End Rounding.

(** ** The fit error, to the bit *)

Lemma single_prec_pos : 0 < Single.prec.
Proof. reflexivity. Qed.

Lemma of_double_grounded (x : Double.double) :
  grounded Single.prec Single.emax (Single.of_double x).
Proof.
  destruct x as [s|s| |s m e]; try exact I.
  unfold Single.of_double.
  destruct s; cbn [cond_Zopp Z.opp binary_normalize].
  - pose proof (round_ground Single.prec Single.emax true m e) as H.
    destruct (binary_round Single.prec Single.emax true m e); try exact I.
    apply H.
  - pose proof (round_ground Single.prec Single.emax false m e) as H.
    destruct (binary_round Single.prec Single.emax false m e); try exact I.
    apply H.
Qed.

(** The contribution of a point is held in a [float] that is [proper]. *)
Lemma machine_point_error_proper (pt : Machine.point) :
  proper (Machine.point_error pt).
Proof.
  rewrite machine_point_error_flat.
  destruct (machine_fold_min (machine_grid_distances pt) Machine.error_cap
              error_cap_nonneg (machine_grid_distances_sign pt))
    as (Hnn & _ & _ & Hin).
  split; [exact Hnn|].
  destruct Hin as [-> | Hin]; [vm_compute; discriminate|].
  apply machine_grid_distances_in in Hin. destruct Hin as (gx & gy & _ & _ & ->).
  apply of_double_grounded.
Qed.

Lemma machine_fit_error_snoc (pts : list Machine.point) (pt : Machine.point) :
  Machine.fit_error (pts ++ [pt])
  = Single.add (Machine.fit_error pts) (Machine.point_error pt).
Proof. unfold Machine.fit_error. now rewrite fold_left_app. Qed.

Lemma machine_fit_error_proper (pts : list Machine.point) :
  proper (Machine.fit_error pts).
Proof.
  induction pts as [|pt pts IH] using rev_ind.
  - split; exact I.
  - rewrite machine_fit_error_snoc.
    destruct IH as [Hn Hg], (machine_point_error_proper pt) as [Hn' Hg'].
    destruct (add_ground Single.prec Single.emax single_prec_pos _ _ Hn Hg Hn' Hg')
      as (H1 & H2 & _).
    split; [exact H1 | exact H2].
Qed.








(** X12: whatever the coordinates of the points are, NaN and infinities
    included, the error of a cloud is never a NaN and never negative, and
    the contribution of a point is never a NaN, never negative and at most
    1000. *)
Theorem X12_fit_error_bounds (pts : list Machine.point) :
  nonneg (Machine.fit_error pts)
  /\ forall pt, nonneg (Machine.point_error pt)
                /\ SFleb (Machine.point_error pt) Machine.error_cap = true.
Proof.
  split; [exact (proj1 (machine_fit_error_proper pts))|].
  intros pt. split; [exact (proj1 (machine_point_error_proper pt))|].
  rewrite machine_point_error_flat.
  destruct (machine_fold_min (machine_grid_distances pt) Machine.error_cap
              error_cap_nonneg (machine_grid_distances_sign pt))
    as (_ & Hle & _).
  exact Hle.
Qed.

(** ** Values of the format *)

Section Format.
Variables prec emax : Z.
Hypothesis prec_pos : 0 < prec.

Lemma shr_fexp_digits (m e : Z) :
  0 <= m ->
  Zdigits2 (shr_m (fst (shr_fexp prec emax m e loc_Exact))) <= prec.
Proof.
  intros Hm. unfold shr_fexp, shr, shr_record_of_loc.
  assert (Hn : Zdigits2 m - prec <= fexp prec emax (Zdigits2 m + e) - e)
    by (unfold fexp; std_Z; lia).
  destruct (fexp prec emax (Zdigits2 m + e) - e) as [|p|p];
    cbn [fst shr_m]; try lia.
  destruct (iter_shr_1_digits p (Build_shr_record m false false) Hm) as [_ D].
  rewrite D. cbn [shr_m]. lia.
Qed.

Lemma round_aux_representable (s : bool) (m e : Z) (l : location) :
  0 <= m -> representable prec emax (binary_round_aux prec emax s m e l).
Proof.
  intros Hm. unfold binary_round_aux.
  destruct (shr_fexp_ground prec emax m e l Hm) as [H1 E1].
  destruct (shr_fexp prec emax m e l) as [mrs' e']. cbn [fst snd] in H1, E1.
  set (m1 := round_nearest_even (shr_m mrs') (loc_of_shr_record mrs')).
  assert (Hm1 : 0 <= m1).
  { pose proof (round_nearest_even_ge (shr_m mrs') (loc_of_shr_record mrs')).
    unfold m1. lia. }
  destruct (shr_fexp_ground prec emax m1 e' loc_Exact Hm1) as [H2 E2].
  pose proof (shr_fexp_digits m1 e' Hm1) as D2.
  destruct (shr_fexp prec emax m1 e' loc_Exact) as [mrs'' e''].
  cbn [fst snd] in H2, E2, D2.
  destruct (shr_m mrs'') as [|q|q]; [exact I| |exact I].
  change (Zdigits2 (Z.pos q)) with (Z.pos (digits2_pos q)) in D2.
  destruct (e'' <=? emax - prec) eqn:Hle; [|exact I].
  apply Z.leb_le in Hle. simpl. lia.
Qed.

Lemma normalize_representable (m e : Z) (s : bool) :
  representable prec emax (binary_normalize prec emax m e s).
Proof.
  unfold binary_normalize, binary_round.
  destruct m as [|p|p]; [exact I| |];
    destruct (shl_align p e _) as [mz ez]; apply round_aux_representable; lia.
Qed.

Lemma add_representable (x y : spec_float) :
  representable prec emax x -> representable prec emax y ->
  representable prec emax (SFadd prec emax x y).
Proof.
  destruct x as [sx|sx| |sx mx ex], y as [sy|sy| |sy my ey];
    intros Hx Hy; try exact I; try exact Hx; try exact Hy.
  - destruct sx, sy; exact I.
  - destruct sx, sy; exact I.
  - apply normalize_representable.
Qed.

Lemma sub_representable (x y : spec_float) :
  representable prec emax x -> representable prec emax y ->
  representable prec emax (SFsub prec emax x y).
Proof.
  destruct x as [sx|sx| |sx mx ex], y as [sy|sy| |sy my ey];
    intros Hx Hy; try exact I; try exact Hx; try exact Hy.
  - destruct sx, sy; exact I.
  - destruct sx, sy; exact I.
  - apply normalize_representable.
Qed.

Lemma abs_representable (x : spec_float) :
  representable prec emax x -> representable prec emax (SFabs x).
Proof. destruct x; intros H; exact H. Qed.

End Format.

Lemma l1_distance_representable (tp : Machine.point) (cp : Machine.color_point) :
  float_point tp -> float_entry cp ->
  representable Single.prec Single.emax (Machine.l1_distance tp cp).
Proof.
  intros (Hx & Hy & Hz) (Cx & Cy & Cz). unfold Machine.l1_distance.
  repeat first [apply add_representable | apply abs_representable
               | apply sub_representable | exact single_prec_pos | assumption].
Qed.

(** The promotion of a [float]: the mantissa is shifted to 53 bits. *)
Lemma to_double_finite (s : bool) (m : positive) (e : Z) :
  representable Single.prec Single.emax (S754_finite s m e) ->
  exists k, 29 <= Zpos k
            /\ Single.to_double (S754_finite s m e)
               = S754_finite s (Pos.iter xO m k) (e - Zpos k).
Proof.
  unfold representable, emin, Single.prec, Single.emax. intros [Hd He].
  unfold Single.to_double.
  assert (Hr : binary_normalize Double.prec Double.emax (cond_Zopp s (Z.pos m)) e false
               = binary_round Double.prec Double.emax s m e)
    by now destruct s.
  rewrite Hr. unfold binary_round, shl_align.
  assert (Hf : fexp Double.prec Double.emax (Zpos (digits2_pos m) + e)
               = Zpos (digits2_pos m) + e - 53).
  { unfold fexp, emin, Double.prec, Double.emax. std_Z. lia. }
  std_Z. rewrite Hf.
  destruct (Z.pos (digits2_pos m) + e - 53 - e) as [|k|k] eqn:Hk; try lia.
  exists k. split; [lia|].
  replace (Z.pos (digits2_pos m) + e - 53) with (e - Z.pos k) by lia.
  apply round_aux_exact; [|lia]. rewrite iter_xO_digits. lia.
Qed.

Lemma compare_finite_eq (m1 m2 : positive) (e1 e2 : Z) :
  SFcompare (S754_finite false m1 e1) (S754_finite false m2 e2) = Some Eq ->
  e1 = e2 /\ m1 = m2.
Proof.
  unfold SFcompare. intros H. injection H as H.
  now apply compare_eq_finite.
Qed.

Lemma dedup_threshold_value :
  Machine.dedup_threshold = S754_finite false 8646911284551352 (-58).
Proof. vm_compute. reflexivity. Qed.

(** No [float] is promoted to the [double] nearest to 0.03. *)
Lemma threshold_not_float (x : Single.single) :
  representable Single.prec Single.emax x ->
  SFcompare (Single.to_double x) Machine.dedup_threshold <> Some Eq.
Proof.
  intros Hx. rewrite dedup_threshold_value.
  destruct x as [s|s| |s m e];
    [destruct s; discriminate | destruct s; discriminate | discriminate |].
  destruct (to_double_finite s m e Hx) as (k & Hk & ->).
  destruct s; [discriminate|].
  intros H. apply compare_finite_eq in H. destruct H as [_ H].
  apply (f_equal Zpos) in H. rewrite iter_xO_value in H.
  assert (H2 : 2 ^ Z.pos k = 2 ^ 29 * 2 ^ (Z.pos k - 29))
    by (rewrite <- Z.pow_add_r by lia; f_equal; lia).
  rewrite H2 in H.
  assert (Hm : (Z.pos 8646911284551352) mod 2 ^ 29 = 0).
  { rewrite <- H.
    replace (Z.pos m * (2 ^ 29 * 2 ^ (Z.pos k - 29)))
      with (Z.pos m * 2 ^ (Z.pos k - 29) * 2 ^ 29) by ring.
    apply Z.mod_mul. lia. }
  vm_compute in Hm. discriminate Hm.
Qed.

Lemma leb_is_ltb (x : Single.single) :
  representable Single.prec Single.emax x ->
  Double.leb (Single.to_double x) Machine.dedup_threshold
  = Double.ltb (Single.to_double x) Machine.dedup_threshold.
Proof.
  intros Hx. pose proof (threshold_not_float x Hx) as Hne.
  unfold Double.leb, Double.ltb, SFleb, SFltb.
  destruct (SFcompare (Single.to_double x) Machine.dedup_threshold) as [[| |]|];
    try reflexivity. congruence.
Qed.

(** ** Deduplication, to the bit *)

Lemma machine_include_scan_true (data : list Machine.point) (cp : Machine.color_point) :
  Machine.include_scan data cp = true <->
  Forall (fun tp => Machine.closer tp cp = false) data.
Proof.
  induction data as [|tp data IH]; simpl.
  - split; [constructor | reflexivity].
  - destruct (Machine.closer tp cp) eqn:H.
    + split; [discriminate|]. intros HF. inversion HF; subst. congruence.
    + rewrite IH. split; [now constructor | intros HF; now inversion HF].
Qed.

Lemma machine_include_scan_false (data : list Machine.point) (cp : Machine.color_point) :
  Machine.include_scan data cp = false <->
  Exists (fun tp => Machine.closer tp cp = true) data.
Proof.
  induction data as [|tp data IH]; simpl.
  - split; [discriminate | intros H; inversion H].
  - destruct (Machine.closer tp cp) eqn:H.
    + split; [now constructor | reflexivity].
    + rewrite IH. split; [now constructor|].
      intros HE. inversion HE; subst; [congruence | assumption].
Qed.

Lemma snoc_not_same {A} (l : list A) (x : A) : l ++ [x] <> l.
Proof.
  intros H. apply (f_equal (@length A)) in H.
  rewrite length_app in H. simpl in H. lia.
Qed.

(** C4, as the code has it: the new point is dropped, and the collection
    left as it was, exactly when for some retained point the sum
    [abs(..)+abs(..)+abs(..)], computed in [float] and promoted, is below the
    [double] 0.03; it is appended exactly when the sum is below 0.03 for no
    retained point.  On coordinates that are values of the [float] format
    the sum never equals the [double] 0.03: at or below the threshold and
    below it are one test. *)
Theorem C4_deduplication (data : list Machine.point) (cp : Machine.color_point) :
  (Exists (fun tp => Double.ltb (Single.to_double (Machine.l1_distance tp cp))
                                Machine.dedup_threshold = true) data
   <-> Machine.push_unless_duplicate data cp = data)
  /\ (Forall (fun tp => Double.ltb (Single.to_double (Machine.l1_distance tp cp))
                                   Machine.dedup_threshold = false) data
      <-> Machine.push_unless_duplicate data cp = data ++ [Machine.to_point cp])
  /\ (Forall float_point data -> float_entry cp ->
      Forall (fun tp => Double.leb (Single.to_double (Machine.l1_distance tp cp))
                                   Machine.dedup_threshold
                        = Double.ltb (Single.to_double (Machine.l1_distance tp cp))
                                     Machine.dedup_threshold) data).
Proof.
  split; [|split].
  - rewrite <- (machine_include_scan_false data cp).
    unfold Machine.push_unless_duplicate.
    destruct (Machine.include_scan data cp).
    + split; [discriminate|]. intros H. now apply snoc_not_same in H.
    + split; reflexivity.
  - rewrite <- (machine_include_scan_true data cp).
    unfold Machine.push_unless_duplicate.
    destruct (Machine.include_scan data cp).
    + split; reflexivity.
    + split; [discriminate|]. intros H. symmetry in H. now apply snoc_not_same in H.
  - intros Hd Hc. eapply Forall_impl; [|exact Hd].
    intros tp Htp. apply leb_is_ltb. now apply l1_distance_representable.
Qed.

Lemma C4_deduplication_witness :
  Machine.push_unless_duplicate [machine_origin] near_entry = [machine_origin]
  /\ Forall (fun tp => Double.leb (Single.to_double (Machine.l1_distance tp near_entry))
                                  Machine.dedup_threshold
                       = Double.ltb (Single.to_double (Machine.l1_distance tp near_entry))
                                    Machine.dedup_threshold) [machine_origin].
Proof.
  split.
  - apply (proj1 (proj1 (C4_deduplication [machine_origin] near_entry))).
    constructor. vm_compute. reflexivity.
  - apply (proj2 (proj2 (C4_deduplication [machine_origin] near_entry))).
    + constructor; [|constructor]. repeat split.
    + repeat split; vm_compute; discriminate.
Defined.

(** C4 as the claim words it fails, the L1 distance being the exact one:
    next to the origin, the entry [(0.02f, 0.01f, 7e-10f)] is at an exact
    distance above 0.03 and is dropped, and the entry
    [(0.02f, 10737415 * 2^-30, 7 * 2^-31)] is at an exact distance below 0.03
    and is appended.  The rounded sums lie on the other side of the
    threshold. *)
Lemma C4_rounding_decides :
  float_entry near_entry /\ float_entry far_entry
  /\ (3 # 100 < exact_l1 machine_origin near_entry)%Q
  /\ (exact_value Machine.dedup_threshold < exact_l1 machine_origin near_entry)%Q
  /\ Machine.push_unless_duplicate [machine_origin] near_entry = [machine_origin]
  /\ (exact_l1 machine_origin far_entry < 3 # 100)%Q
  /\ (exact_l1 machine_origin far_entry < exact_value Machine.dedup_threshold)%Q
  /\ Machine.push_unless_duplicate [machine_origin] far_entry
     = [machine_origin; Machine.to_point far_entry].
Proof.
  split; [repeat split; vm_compute; discriminate|].
  split; [repeat split; vm_compute; discriminate|].
  repeat split; vm_compute; reflexivity.
Qed.


(** ** An entry offered twice *)

Section Infinite.
Variables prec emax : Z.

Lemma abs_sign (x : spec_float) : nonneg_or_nan (SFabs x).
Proof. destruct x; [right; exact I | right; reflexivity | now left | right; reflexivity]. Qed.

(** The difference with a coordinate that is not finite is [+inf] or NaN
    once [abs] is applied. *)
Lemma abs_sub_unbounded (t c : spec_float) :
  Single.is_finite c = false ->
  Single.is_finite (SFabs (SFsub prec emax t c)) = false.
Proof.
  destruct c as [sc|sc| |sc mc ec]; try discriminate; intros _.
  - destruct t as [st|st| |st mt et]; try reflexivity. now destruct st, sc.
  - now destruct t.
Qed.

Lemma add_unbounded_l (u a : spec_float) :
  nonneg_or_nan u -> Single.is_finite u = false -> nonneg_or_nan a ->
  Single.is_finite (SFadd prec emax u a) = false.
Proof.
  intros [-> | Hu] Hf [-> | Ha]; try reflexivity.
  - now destruct u.
  - destruct u as [su|su| |su mu eu]; try discriminate; simpl in Hu;
      try contradiction; subst.
    destruct a as [sa|sa| |sa ma ea]; simpl in Ha; subst;
      try contradiction; reflexivity.
Qed.

Lemma add_unbounded_r (a u : spec_float) :
  nonneg_or_nan u -> Single.is_finite u = false -> nonneg_or_nan a ->
  Single.is_finite (SFadd prec emax a u) = false.
Proof.
  intros [-> | Hu] Hf [-> | Ha]; try reflexivity.
  - now destruct a.
  - destruct u as [su|su| |su mu eu]; try discriminate; simpl in Hu;
      try contradiction; subst.
    destruct a as [sa|sa| |sa ma ea]; simpl in Ha; subst;
      try contradiction; reflexivity.
Qed.

Lemma sub_diag (x : spec_float) :
  Single.is_finite x = true -> SFabs (SFsub prec emax x x) = S754_zero false.
Proof.
  destruct x as [s|s| |s m e]; try discriminate; intros _.
  - now destruct s.
  - unfold SFsub. std_Z. now rewrite Z.sub_diag.
Qed.

End Infinite.

Lemma l1_distance_unbounded (tp : Machine.point) (cp : Machine.color_point) :
  finite_entry cp = false -> Machine.closer tp cp = false.
Proof.
  intros Hf. unfold Machine.closer.
  assert (Hu : Single.is_finite (Machine.l1_distance tp cp) = false).
  { unfold Machine.l1_distance, Single.add, Single.abs, Single.sub.
    unfold finite_entry in Hf.
    destruct (Single.is_finite (Machine.PointXYZRGB.x cp)) eqn:Hx.
    - destruct (Single.is_finite (Machine.PointXYZRGB.y cp)) eqn:Hy.
      + simpl in Hf. apply add_unbounded_r.
        * apply abs_sign.
        * now apply abs_sub_unbounded.
        * apply add_sign; apply abs_sign.
      + apply add_unbounded_l.
        * apply add_sign; apply abs_sign.
        * apply add_unbounded_r; [apply abs_sign | | apply abs_sign].
          now apply abs_sub_unbounded.
        * apply abs_sign.
    - apply add_unbounded_l.
      + apply add_sign; apply abs_sign.
      + apply add_unbounded_l; [apply abs_sign | | apply abs_sign].
        now apply abs_sub_unbounded.
      + apply abs_sign. }
  assert (Hs : nonneg_or_nan (Machine.l1_distance tp cp)).
  { unfold Machine.l1_distance, Single.add, Single.abs.
    apply add_sign; [apply add_sign|]; apply abs_sign. }
  destruct (Machine.l1_distance tp cp) as [s|s| |s m e]; try discriminate.
  - destruct Hs as [Hs | Hs]; [discriminate Hs|]. simpl in Hs. subst.
    vm_compute. reflexivity.
  - reflexivity.
Qed.

Lemma machine_include_scan_unbounded (data : list Machine.point)
  (cp : Machine.color_point) :
  finite_entry cp = false -> Machine.include_scan data cp = true.
Proof.
  intros H. apply machine_include_scan_true, Forall_forall. intros tp _.
  now apply l1_distance_unbounded.
Qed.

Lemma machine_close_to_itself (cp : Machine.color_point) :
  finite_entry cp = true -> Machine.closer (Machine.to_point cp) cp = true.
Proof.
  unfold finite_entry. intros H.
  apply andb_prop in H. destruct H as [H Hz].
  apply andb_prop in H. destruct H as [Hx Hy].
  unfold Machine.closer, Machine.l1_distance, Machine.to_point.
  cbn [Machine.PointXYZ.x Machine.PointXYZ.y Machine.PointXYZ.z].
  unfold Single.abs, Single.sub.
  rewrite !sub_diag by assumption. vm_compute. reflexivity.
Qed.

Lemma machine_include_scan_app (l l' : list Machine.point) (cp : Machine.color_point) :
  Machine.include_scan (l ++ l') cp
  = Machine.include_scan l cp && Machine.include_scan l' cp.
Proof.
  induction l as [|tp l IH]; simpl; [reflexivity|].
  destruct (Machine.closer tp cp); [reflexivity | exact IH].
Qed.

(** X16: a cloud entry with three finite coordinates that is offered a
    second time is not retained a second time; an entry with a NaN or an
    infinite coordinate is appended each time it is offered, so the same
    pixel without measurement can fill [data] with copies. *)
Theorem X16_offered_twice (data : list Machine.point) (cp : Machine.color_point) :
  (finite_entry cp = true ->
   Machine.push_unless_duplicate (Machine.push_unless_duplicate data cp) cp
   = Machine.push_unless_duplicate data cp)
  /\ (finite_entry cp = false ->
      Machine.push_unless_duplicate (Machine.push_unless_duplicate data cp) cp
      = data ++ [Machine.to_point cp; Machine.to_point cp]).
Proof.
  split; intros Hv.
  - unfold Machine.push_unless_duplicate at 2 3.
    destruct (Machine.include_scan data cp) eqn:Hs.
    + unfold Machine.push_unless_duplicate.
      rewrite machine_include_scan_app, Hs. cbn [Machine.include_scan andb].
      now rewrite machine_close_to_itself.
    + unfold Machine.push_unless_duplicate. now rewrite Hs.
  - unfold Machine.push_unless_duplicate.
    rewrite !machine_include_scan_unbounded by exact Hv.
    now rewrite <- app_assoc.
Qed.

Lemma X16_offered_twice_witness :
  Machine.push_unless_duplicate (Machine.push_unless_duplicate [] near_entry) near_entry
  = [Machine.to_point near_entry]
  /\ Machine.push_unless_duplicate
       (Machine.push_unless_duplicate [] infinite_entry) infinite_entry
     = [Machine.to_point infinite_entry; Machine.to_point infinite_entry].
Proof.
  split.
  - exact (proj1 (X16_offered_twice [] near_entry) eq_refl).
  - exact (proj2 (X16_offered_twice [] infinite_entry) eq_refl).
Defined.

(** ** The board points, to the bit *)

Lemma machine_all_intersections_invariant (P : list Machine.point -> Prop)
  (cloud : Machine.PointCloudRGB) (lines : list Vec4i) (s : line_split) :
  P [] ->
  (forall data hl vl, P data -> P (Machine.add_intersection cloud hl data vl)) ->
  P (Machine.all_intersections cloud lines s).
Proof.
  intros H0 Hstep. unfold Machine.all_intersections.
  apply fold_left_invariant; [exact H0|].
  intros data i _ Hd. apply fold_left_invariant; [exact Hd|].
  intros data' j _ Hd'. now apply Hstep.
Qed.

Lemma machine_add_intersection_cases (cloud : Machine.PointCloudRGB) (hl vl : Vec4i)
  (data : list Machine.point) :
  Machine.add_intersection cloud hl data vl = data
  \/ exists x y, looked_up x y
                 /\ Machine.add_intersection cloud hl data vl
                    = Machine.push_unless_duplicate data (cloud x y).
Proof.
  unfold Machine.add_intersection, Machine.lookup_and_add.
  pose proof (accepted_pixel hl vl) as Hin.
  destruct (px (findIntersection hl vl) >? 0) eqn:Hx0; [|now left].
  destruct (py (findIntersection hl vl) >? 0) eqn:Hy0; [|now left].
  apply Z.gtb_gt in Hx0, Hy0. right.
  exists (px (findIntersection hl vl)), (py (findIntersection hl vl)).
  split; [now apply Hin | reflexivity].
Qed.

Lemma machine_push_cases (data : list Machine.point) (cp : Machine.color_point) :
  (Machine.push_unless_duplicate data cp = data)
  \/ (Machine.push_unless_duplicate data cp = data ++ [Machine.to_point cp]
      /\ Forall (fun tp => Machine.closer tp cp = false) data).
Proof.
  unfold Machine.push_unless_duplicate.
  destruct (Machine.include_scan data cp) eqn:H.
  - right. split; [reflexivity|]. now apply machine_include_scan_true.
  - now left.
Qed.

(** X3: whatever the lines and the cloud are, no board point passes the
    test of the scan, as the machine evaluates it, against a board point
    retained before it. *)
Theorem X3_board_points_apart (lines : list Vec4i) (cloud : Machine.PointCloudRGB) :
  ForallOrdPairs machine_apart (Machine.board_points lines cloud).
Proof.
  unfold Machine.board_points.
  apply machine_all_intersections_invariant; [constructor|].
  intros data hl vl Hd.
  destruct (machine_add_intersection_cases cloud hl vl data)
    as [-> | (x & y & _ & ->)]; [exact Hd|].
  destruct (machine_push_cases data (cloud x y)) as [-> | [-> Hall]]; [exact Hd|].
  apply ForallOrdPairs_snoc; [exact Hd|].
  eapply Forall_impl; [|exact Hall]. intros tp Htp.
  unfold machine_apart, Machine.to_point.
  cbn [Machine.PointXYZ.x Machine.PointXYZ.y Machine.PointXYZ.z].
  destruct (cloud x y) as [cx cy cz c]. exact Htp.
Qed.

(** ** A point without a measured [x] or [y] *)

Lemma grid_offset_unbounded (g : Z) (c : Single.single) :
  Single.is_finite c = false -> Single.is_finite (Machine.grid_offset g c) = false.
Proof.
  unfold Machine.grid_offset, Double.sub.
  generalize (Double.mul Machine.square (Double.of_int g)). intros v.
  destruct c as [sc|sc| |sc mc ec]; try discriminate; intros _; simpl.
  - destruct v as [sv|sv| |sv mv ev]; try reflexivity. now destruct sv, sc.
  - now destruct v.
Qed.

Lemma mul_self_unbounded (d : Double.double) :
  Single.is_finite d = false -> Single.is_finite (Double.mul d d) = false.
Proof. destruct d as [s|s| |s m e]; try discriminate; reflexivity. Qed.

Lemma grid_distance_unbounded (pt : Machine.point) (gx gy : Z) :
  Single.is_finite (Machine.PointXYZ.x pt) = false
  \/ Single.is_finite (Machine.PointXYZ.y pt) = false ->
  SFltb (Machine.grid_distance pt gx gy) Machine.error_cap = false.
Proof.
  intros H. unfold Machine.grid_distance.
  set (dx := Machine.grid_offset gx (Machine.PointXYZ.x pt)).
  set (dy := Machine.grid_offset gy (Machine.PointXYZ.y pt)).
  assert (Hs : nonneg_or_nan (Double.add (Double.mul dx dx) (Double.mul dy dy)))
    by (apply add_sign; apply mul_self_sign).
  assert (Hu : Single.is_finite (Double.add (Double.mul dx dx) (Double.mul dy dy))
               = false).
  { destruct H as [H | H].
    - apply add_unbounded_l; try apply mul_self_sign.
      now apply mul_self_unbounded, grid_offset_unbounded.
    - apply add_unbounded_r; try apply mul_self_sign.
      now apply mul_self_unbounded, grid_offset_unbounded. }
  destruct (Double.add (Double.mul dx dx) (Double.mul dy dy)) as [s|s| |s m e];
    try discriminate.
  - destruct Hs as [Hs | Hs]; [discriminate Hs|]. simpl in Hs. subst. reflexivity.
  - reflexivity.
Qed.

Lemma machine_fold_min_idle (ds : list Single.single) (e0 : Single.single) :
  Forall (fun d => SFltb d e0 = false) ds ->
  fold_left machine_min_step ds e0 = e0.
Proof.
  induction 1 as [|d ds Hd _ IH]; [reflexivity|].
  cbn [fold_left]. unfold machine_min_step at 2, Single.ltb. rewrite Hd. exact IH.
Qed.

(** X20: a transformed point whose [x] or [y] is a NaN or an infinity
    contributes exactly 1000 to the error, as a point far from the board
    does. *)
Theorem X20_unmeasured_point_contributes_cap (pt : Machine.point) :
  Single.is_finite (Machine.PointXYZ.x pt) = false
  \/ Single.is_finite (Machine.PointXYZ.y pt) = false ->
  Machine.point_error pt = Machine.error_cap.
Proof.
  intros H. rewrite machine_point_error_flat.
  apply machine_fold_min_idle, Forall_forall. intros d Hd.
  apply machine_grid_distances_in in Hd. destruct Hd as (gx & gy & _ & _ & ->).
  now apply grid_distance_unbounded.
Qed.

Lemma X20_unmeasured_point_contributes_cap_witness :
  Machine.point_error (Machine.PointXYZ.mk S754_nan S754_nan S754_nan)
  = Machine.error_cap.
Proof.
  apply (X20_unmeasured_point_contributes_cap
           (Machine.PointXYZ.mk S754_nan S754_nan S754_nan)).
  left. reflexivity.
Defined.
